(** * Brute-force convex hull (kwfarkas42.cpp): model and verification

    The development embeds [brute_force_convex_hull] and [find_hull] of
    [src/Brute-Force-Convex-Hull/kwfarkas42.cpp].

    - A [double] is an IEEE 754 binary64 value ([spec_float] with
      precision 53 and maximal exponent 1024); every arithmetic operation
      of the source is one correctly rounded operation (round to nearest,
      ties to even), in the order the C++ expression evaluates it, with
      neither fused multiply-add nor excess precision.
    - A [std::vector] is a list; [operator[]] outside the vector is
      undefined behaviour and is the outcome [Undefined].
    - The two vector parameters of [find_hull] are references: they name
      objects of a store, and the same object may be passed for both.
    - A [std::set<point>] is the strictly ascending list of its elements.
    - [size_t] and [long long unsigned int] are 64-bit: values in Z, with
      the wrap-around of [pts.size() - 1] and of [i + 1] written out (a
      loop counter stays below its bound and never wraps). *)

From Stdlib Require Import ZArith Lia String.
From Stdlib Require Import Floats.SpecFloat.
From stdpp Require Import base option list gmap sorting.

Local Open Scope Z_scope.

(** ** Doubles *)

Module Double.

Definition prec : Z := 53.
Definition emax : Z := 1024.

Definition double : Type := spec_float.

Definition add : double → double → double := SFadd prec emax.
Definition sub : double → double → double := SFsub prec emax.
Definition mul : double → double → double := SFmul prec emax.

(** [x < y]; [x > y] is [lt y x]; both are false when an operand is NaN. *)
Definition lt : double → double → bool := SFltb.
(** [x == y] *)
Definition eq : double → double → bool := SFeqb.

(** The double an integer literal or a decimal integer of the input file
    converts to. *)
Definition of_Z (z : Z) : double := binary_normalize prec emax z 0 false.

(** The literal [0] of the comparisons [val < 0] and [val > 0]. *)
Definition zero : double := S754_zero false.

Definition is_nan (x : double) : bool :=
  match x with S754_nan => true | _ => false end.

(** A value a double variable can hold. *)
Definition valid (x : double) : bool := valid_binary prec emax x.

End Double.

Abbreviation double := Double.double.

(** ** Points and line segments *)

(** [typedef std::pair<double,double> point;] *)
Definition point : Type := double * double.

(** [typedef std::pair<point,point> line_segment;] *)
Definition line_segment : Type := point * point.

Definition get_first (sgmt : line_segment) : point := sgmt.1.
Definition get_second (sgmt : line_segment) : point := sgmt.2.

(** [operator<] of [std::pair]:
    [x.first < y.first || (!(y.first < x.first) && x.second < y.second)],
    the order of [std::set<point>]. *)
Definition point_lt (x y : point) : bool :=
  Double.lt x.1 y.1 || (negb (Double.lt y.1 x.1) && Double.lt x.2 y.2).

(** [operator==] of [std::pair]. *)
Definition point_eq (x y : point) : bool :=
  Double.eq x.1 y.1 && Double.eq x.2 y.2.

(** ** Outcomes of a call *)

Inductive result (A : Type) : Type :=
  | Ok (a : A)
  | Throw (what : string)
  | Undefined.
Arguments Ok {A} a.
Arguments Throw {A} what.
Arguments Undefined {A}.

#[export] Instance result_ret : MRet result := λ A a, Ok a.
#[export] Instance result_bind : MBind result := λ A B f m,
  match m with
  | Ok a => f a
  | Throw what => Throw what
  | Undefined => Undefined
  end.

(** ** 64-bit unsigned arithmetic and vectors *)

Definition wrap64 (z : Z) : Z := z mod 2 ^ 64.

(** [v.size()] *)
Definition vsize {A} (v : list A) : Z := Z.of_nat (length v).

(** [v[i]] *)
Definition at_ {A} (v : list A) (i : Z) : result A :=
  if (0 <=? i) && (i <? vsize v)
  then match v !! Z.to_nat i with Some x => Ok x | None => Undefined end
  else Undefined.

(** [for (i = lo; i < hi; i++) body]: the body assigns neither [i] nor the
    bound, so the loop runs once for each of [lo], [lo+1], ..., [hi-1] (no
    time when [hi <= lo]). *)
Fixpoint for_each {S} (idx : list Z) (body : Z → S → result S) (s : S) : result S :=
  match idx with
  | [] => Ok s
  | i :: idx => s' ← body i s; for_each idx body s'
  end.

Definition for_range {S} (lo hi : Z) (body : Z → S → result S) (s : S) : result S :=
  for_each (seqZ lo (hi - lo)) body s.

(** ** brute_force_convex_hull (lines 188-223) *)

(** Lines 200-212: the flags [LT] and [GT] after the scan of all points,
    for the line [a x + b y = c]. *)
Definition scan_step (pts : list point) (a b c : double)
    (k : Z) (flags : bool * bool) : result (bool * bool) :=
  let '(LT, GT) := flags in
  pk ← at_ pts k;
  let val := Double.sub (Double.add (Double.mul a pk.1) (Double.mul b pk.2)) c in
  if Double.lt val Double.zero then Ok (true, GT)
  else if Double.lt Double.zero val then Ok (LT, true)
  else Ok (LT, GT).

Definition scan (pts : list point) (a b c : double) : result (bool * bool) :=
  for_range 0 (vsize pts) (scan_step pts a b c) (false, false).

(** Lines 195-220: the body of the loop over [j]. *)
Definition pair_step (pts : list point) (i j : Z)
    (ret_sgmts : list line_segment) : result (list line_segment) :=
  pj ← at_ pts j;
  pi ← at_ pts i;
  let a := Double.sub pj.2 pi.2 in
  let b := Double.sub pi.1 pj.1 in
  let c := Double.sub (Double.mul pj.2 pi.1) (Double.mul pi.2 pj.1) in
  '(LT, GT) ← scan pts a b c;
  if negb (eqb LT true) || negb (eqb GT true)
  then Ok (ret_sgmts ++ [(pi, pj)])
  else Ok ret_sgmts.

Definition brute_force_convex_hull (pts : list point)
    (ret_sgmts : list line_segment) : result (list line_segment) :=
  for_range 0 (wrap64 (vsize pts - 1)) (λ i,
    for_range (wrap64 (i + 1)) (vsize pts) (pair_step pts i)) ret_sgmts.

(** ** std::set<point> *)

(** [s.insert(x)]: [x] goes to its place unless an equivalent element
    (neither less than the other) is already there. *)
Fixpoint set_insert (x : point) (s : list point) : list point :=
  match s with
  | [] => [x]
  | y :: s' =>
      if point_lt x y then x :: s
      else if point_lt y x then y :: set_insert x s'
      else s
  end.

(** [std::transform(first, last, std::inserter(s, s.end()), f)] *)
Definition transform_insert {A} (v : list A) (s : list point) (f : A → point) : list point :=
  foldl (λ s x, set_insert (f x) s) s v.

(** The set [pts_set] of [find_hull] (lines 243-260) for the segments
    [sgmts]. *)
Definition endpoints_set (sgmts : list line_segment) : list point :=
  transform_insert sgmts (transform_insert sgmts [] get_first) get_second.

(** The message of the exception of line 229. *)
Definition no_points : string :=
  "error: one or more points are required to find the convex hull".

(** ** The store and find_hull (lines 225-264) *)

(** The identity of a [std::vector<point>] object. *)
Definition ref : Type := nat.

(** [vectors]: the vector objects alive during the call.  [calls]: the
    argument of every call of [brute_force_convex_hull] so far, oldest
    first. *)
Record state : Type := State {
  vectors : gmap ref (list point);
  calls : list (list point)
}.

Definition M (A : Type) : Type := state → result A * state.

#[export] Instance M_ret : MRet M := λ A a σ, (Ok a, σ).
#[export] Instance M_bind : MBind M := λ A B f m σ,
  match m σ with
  | (Ok a, σ') => f a σ'
  | (Throw what, σ') => (Throw what, σ')
  | (Undefined, σ') => (Undefined, σ')
  end.

Definition throw {A} (what : string) : M A := λ σ, (Throw what, σ).

Definition lift {A} (r : result A) : M A := λ σ, (r, σ).

(** The vector a reference names. *)
Definition load (r : ref) : M (list point) := λ σ,
  match vectors σ !! r with
  | Some v => (Ok v, σ)
  | None => (Undefined, σ)
  end.

(** [r.push_back(x)] *)
Definition push_back (r : ref) (x : point) : M unit := λ σ,
  match vectors σ !! r with
  | Some v => (Ok (), State (<[r := v ++ [x]]> (vectors σ)) (calls σ))
  | None => (Undefined, σ)
  end.

(** [*r.begin()] *)
Definition front (r : ref) : M point :=
  v ← load r; lift (at_ v 0).

(** The entry of a call of [brute_force_convex_hull] on [v] in the log. *)
Definition log_call (v : list point) : M unit := λ σ,
  (Ok (), State (vectors σ) (calls σ ++ [v])).

(** A call [brute_force_convex_hull(r, sgmts)]. *)
Definition call_brute_force_convex_hull (r : ref)
    (sgmts : list line_segment) : M (list line_segment) :=
  v ← load r;
  log_call v ;;
  lift (brute_force_convex_hull v sgmts).

(** [std::copy(first, last, std::back_inserter(r))] *)
Fixpoint copy_back_inserter (s : list point) (r : ref) : M unit :=
  match s with
  | [] => mret ()
  | x :: s' => push_back r x ;; copy_back_inserter s' r
  end.

Definition find_hull (pts ret_hull_points : ref) : M unit :=
  n ← (v ← load pts; mret (vsize v));
  if n =? 0 then
    throw no_points
  else
    n ← (v ← load pts; mret (vsize v));
    if n =? 1 then
      x ← front pts;
      push_back ret_hull_points x
    else
      let pts_set : list point := [] in
      let sgmts : list line_segment := [] in
      sgmts ← call_brute_force_convex_hull pts sgmts;
      let pts_set := transform_insert sgmts pts_set get_first in
      let pts_set := transform_insert sgmts pts_set get_second in
      copy_back_inserter pts_set ret_hull_points.

(** ** The caller (main, lines 275-281): two distinct vectors, the output
    one empty; [computeHull] is the vector [hull_pts] after the call. *)

Definition pts_ref : ref := 0%nat.
Definition hull_pts_ref : ref := 1%nat.

Definition main_state (pts : list point) : state :=
  State (<[hull_pts_ref := []]> (<[pts_ref := pts]> ∅)) [].

Definition computeHull (pts : list point) : result (list point) :=
  match find_hull pts_ref hull_pts_ref (main_state pts) with
  | (Ok _, σ) =>
      match vectors σ !! hull_pts_ref with
      | Some hull_pts => Ok hull_pts
      | None => Undefined
      end
  | (Throw what, _) => Throw what
  | (Undefined, _) => Undefined
  end.

(** The calls of [brute_force_convex_hull] made on behalf of [computeHull]. *)
Definition computeHull_calls (pts : list point) : list (list point) :=
  calls (find_hull pts_ref hull_pts_ref (main_state pts)).2.

(** ** Concrete points *)

Definition pt (x y : Z) : point := (Double.of_Z x, Double.of_Z y).

(** The square with its centre (specification, section 8, item 5). *)
Definition square_with_centre : list point :=
  [pt 0 0; pt 0 2; pt 2 0; pt 2 2; pt 1 1].

(** Two distinct points with integer coordinates, in ascending order; the
    larger coordinate is 9007199254740991. *)
Definition steep_pair : list point := [pt 3 5; pt 5 (2 ^ 53 - 1)].

(** The points (0.1, 0.1) and (0.4, 0.7) as the doubles the decimal
    numerals convert to. *)
Definition tenth : double := S754_finite false 7205759403792794 (-56).
Definition four_tenths : double := S754_finite false 7205759403792794 (-54).
Definition seven_tenths : double := S754_finite false 6305039478318694 (-53).
Definition decimal_pair : list point := [(tenth, tenth); (four_tenths, seven_tenths)].

(** A store with one vector, passed to [find_hull] for both parameters. *)
Definition shared_ref : ref := 0%nat.
Definition shared_state : state := State (<[shared_ref := [pt 2 3]]> ∅) [].

(** ** The acceptance rule in the words of the specification

    The definitions of this module follow the specification (section 4.1);
    the theorems compare them with the code above. *)

Module Spec.

(** [signed_value = a·P_k.x + b·P_k.y − c] for the line through [pi] and
    [pj], in double arithmetic. *)
Definition signed_value (pi pj pk : point) : double :=
  let a := Double.sub pj.2 pi.2 in
  let b := Double.sub pi.1 pj.1 in
  let c := Double.sub (Double.mul pj.2 pi.1) (Double.mul pi.2 pj.1) in
  Double.sub (Double.add (Double.mul a pk.1) (Double.mul b pk.2)) c.

Definition negative (pi pj pk : point) : bool :=
  Double.lt (signed_value pi pj pk) Double.zero.

Definition positive (pi pj pk : point) : bool :=
  Double.lt Double.zero (signed_value pi pj pk).

Definition hasNegative (pts : list point) (pi pj : point) : bool :=
  existsb (negative pi pj) pts.

Definition hasPositive (pts : list point) (pi pj : point) : bool :=
  existsb (positive pi pj) pts.

(** accepted iff NOT (hasNegative AND hasPositive) *)
Definition accepted (pts : list point) (pi pj : point) : bool :=
  negb (hasNegative pts pi pj && hasPositive pts pi pj).

(** The accepted pairs whose origin is in [rest], a suffix of [pts], in
    the order the pairs are generated. *)
Fixpoint edges_from (pts rest : list point) : list line_segment :=
  match rest with
  | [] => []
  | pi :: rest' =>
      map (pair pi) (filter (λ pj, accepted pts pi pj = true) rest')
      ++ edges_from pts rest'
  end.

Definition edges (pts : list point) : list line_segment := edges_from pts pts.

(** The endpoints of the accepted edges, in a set. *)
Definition vertices (pts : list point) : list point :=
  endpoints_set (edges pts).

End Spec.

(** A point without a NaN coordinate. *)
Definition no_nan (p : point) : Prop :=
  Double.is_nan p.1 = false ∧ Double.is_nan p.2 = false.

(** A size a [std::vector] can have: a [size_t]. *)
Definition fits_size_t {A} (v : list A) : Prop := vsize v < 2 ^ 64.

(** A fold over the elements of a vector, in order. *)
Fixpoint fold_elements {A S} (f : A → S → result S) (l : list A) (s : S) : result S :=
  match l with
  | [] => Ok s
  | x :: l' => s' ← f x s; fold_elements f l' s'
  end.

(** The value of [a x + b y - c] at a point, as line 205 computes it. *)
Definition line_value (a b c : double) (pk : point) : double :=
  Double.sub (Double.add (Double.mul a pk.1) (Double.mul b pk.2)) c.

(** The update of the flags at one point (lines 208-211). *)
Definition flag_step (a b c : double) (pk : point)
    (flags : bool * bool) : result (bool * bool) :=
  let '(LT, GT) := flags in
  if Double.lt (line_value a b c pk) Double.zero then Ok (true, GT)
  else if Double.lt Double.zero (line_value a b c pk) then Ok (LT, true)
  else Ok (LT, GT).

(** The rank of a double that is not NaN: comparing two doubles is
    comparing their ranks lexicographically. *)
Definition key (x : double) : Z * Z * Z :=
  match x with
  | S754_zero _ => (0, 0, 0)
  | S754_nan => (0, 0, 0)
  | S754_infinity s => (if s then -2 else 2, 0, 0)
  | S754_finite false m e => (1, e, Zpos m)
  | S754_finite true m e => (-1, - e, Zneg m)
  end.

Definition key_lt (k1 k2 : Z * Z * Z) : Prop :=
  k1.1.1 < k2.1.1 ∨
  (k1.1.1 = k2.1.1 ∧ (k1.1.2 < k2.1.2 ∨ (k1.1.2 = k2.1.2 ∧ k1.2 < k2.2))).

Definition pkey (p : point) : (Z * Z * Z) * (Z * Z * Z) := (key p.1, key p.2).

Definition pkey_lt (k1 k2 : (Z * Z * Z) * (Z * Z * Z)) : Prop :=
  key_lt k1.1 k2.1 ∨ (k1.1 = k2.1 ∧ key_lt k1.2 k2.2).

(** A double up to the sign of a zero: [-0.0] and [0.0] compare equal. *)
Definition nz (x : double) : double :=
  match x with S754_zero _ => S754_zero false | _ => x end.

(** No two elements of the vector compare equal ([operator==]): the
    duplicate-free input of the specification. *)
Definition distinct (pts : list point) : Prop :=
  ∀ (i j : nat) (p q : point),
    i ≠ j → pts !! i = Some p → pts !! j = Some q → point_eq p q = false.

(** [distinct], as a test. *)
Fixpoint distinctb (pts : list point) : bool :=
  match pts with
  | [] => true
  | p :: pts' =>
      forallb (λ q, negb (point_eq p q) && negb (point_eq q p)) pts'
      && distinctb pts'
  end.

(** The test of one pair: the segment is appended exactly when the
    acceptance rule holds. *)
Definition accept_step (pts : list point) (pi pj : point)
    (ret_sgmts : list line_segment) : result (list line_segment) :=
  Ok (if Spec.accepted pts pi pj then ret_sgmts ++ [(pi, pj)] else ret_sgmts).

(** ** read_points (lines 156-186) *)

(** The state of the stream when the loop of line 162 stops, that is, after
    the first extraction that fails: [badbit] is set ([io_error]), or
    [failbit] with [eofbit] ([end_of_file]: nothing was left to read), or
    [failbit] alone ([conversion_error]: what was left is no number). *)
Inductive stream_end : Type :=
  | end_of_file
  | conversion_error
  | io_error.

(** What [read_points] sees of the file: whether the stream could be
    opened, the doubles the extractions [ifs >> pt.first] and
    [ifs >> pt.second] deliver one after the other until one fails, the
    state of the stream after that failure, and the text of
    [strerror(errno)]. *)
Record ifstream : Type := Ifstream {
  is_open : bool;
  extracted : list double;
  ending : stream_end;
  strerror_errno : string
}.

(** The loop of lines 162-164: two extractions for a point; the point is
    inserted when both succeed, and the loop stops when one fails. *)
Fixpoint read_loop (numbers : list double) (pts : list point) : list point :=
  match numbers with
  | x :: y :: rest => read_loop rest (set_insert (x, y) pts)
  | _ => pts
  end.

Definition read_points (filename : string) (ifs : ifstream) (ret_pts : ref) : M unit :=
  if is_open ifs then
    let pts := read_loop (extracted ifs) [] in
    match ending ifs with
    | io_error =>
        throw (String.append filename (String.append ": " (strerror_errno ifs)))
    | conversion_error =>
        throw (String.append filename ": error reading point")
    | end_of_file => copy_back_inserter pts ret_pts
    end
  else
    throw (String.append filename (String.append ": " (strerror_errno ifs))).

(** ** Output streams (lines 123-154) *)

(** What was inserted into an output stream, in order: a string, a double,
    a [size_t], a [long], or [std::endl]. *)
Inductive item : Type :=
  | Text (s : string)
  | Float (d : double)
  | Size (n : Z)
  | Long (n : Z)
  | Endl.

Definition ostream : Type := list item.

(** [os << pt] *)
Definition print_point (os : ostream) (pt : point) : ostream :=
  os ++ [Text "("; Float pt.1; Text ","; Float pt.2; Text ")"].

(** [os << pts]: the points, with [std::endl] after each but the last. *)
Fixpoint print_points (os : ostream) (pts : list point) : ostream :=
  match pts with
  | [] => os
  | p :: rest =>
      let os := print_point os p in
      match rest with
      | [] => os
      | _ :: _ => print_points (os ++ [Endl]) rest
      end
  end.

Record console : Type := Console {
  cout : ostream;
  cerr : ostream
}.

Definition usage (name : string) (io : console) : console :=
  Console
    (cout io ++
     [Text "usage: "; Text name; Text " infile"; Endl;
      Text "  infile - file containing points"; Endl; Endl;
      Text "It is assumed that each line of <infile> contains"; Endl;
      Text "a point of form x y where x and y are real numbers."; Endl])
    (cerr io).

(** ** main (lines 266-296) *)

(** A reading of [gettimeofday]. *)
Record timeval : Type := Timeval {
  tv_sec : Z;
  tv_usec : Z
}.

(** A [long] is 64 bits wide, two's complement. *)
Definition wrap_long (z : Z) : Z := (z + 2 ^ 63) mod 2 ^ 64 - 2 ^ 63.

(** The statements of the [try] block (lines 273-288) on the two local
    vectors, both empty at first: the text sent to [std::cout]. *)
Definition try_block (infile : string) (ifs : ifstream)
    (start_tv end_tv : timeval) : M ostream :=
  read_points infile ifs pts_ref ;;
  find_hull pts_ref hull_pts_ref ;;
  hull_pts ← load hull_pts_ref;
  mret ([Text "Convex Hull ("; Size (vsize hull_pts); Text " Points):"; Endl]
        ++ print_points [] hull_pts
        ++ [Endl; Text "Elapsed Time (microseconds): ";
            Long (wrap_long
                    (wrap_long (wrap_long (tv_sec end_tv - tv_sec start_tv) * 1000000)
                     + wrap_long (tv_usec end_tv - tv_usec start_tv)));
            Endl]).

(** [main]: [argv] holds the [argc] arguments, [open] is what opening a
    file of a given name gives, [start_tv] and [end_tv] are the two
    readings of the clock.  The result is what was written to the two
    streams and the value returned. *)
Definition main (argv : list string) (open : string → ifstream)
    (start_tv end_tv : timeval) : result (console * Z) :=
  if negb (vsize argv =? 2) then
    match argv !! 0%nat with
    | Some name =>
        Ok (usage name
              (Console [] [Text "Invalid number of arguments."; Endl; Endl]), 0)
    | None => Undefined
    end
  else
    match argv !! 1%nat with
    | Some infile =>
        match try_block infile (open infile) start_tv end_tv (main_state []) with
        | (Ok out, _) => Ok (Console out [], 0)
        | (Throw what, _) => Ok (Console [] [Text what; Endl], 0)
        | (Undefined, _) => Undefined
        end
    | None => Undefined
    end.

(** The points a file gives: the set of [read_points] for its numbers. *)
Definition points_of (ifs : ifstream) : list point := read_loop (extracted ifs) [].

(** A stream that opens and is read to its end. *)
Definition readable (numbers : list double) : ifstream :=
  Ifstream true numbers end_of_file "".

(** The points a sequence of numbers spells, in order: the numbers two by
    two; a last number without a partner belongs to no point. *)
Fixpoint pairs (numbers : list double) : list point :=
  match numbers with
  | x :: y :: rest => (x, y) :: pairs rest
  | _ => []
  end.

(** The number of [std::endl] in what was written. *)
Fixpoint endl_count (os : ostream) : nat :=
  match os with
  | [] => 0
  | Endl :: os' => S (endl_count os')
  | _ :: os' => endl_count os'
  end.

(** ** The signed value without rounding

    The points of the specification have real coordinates.  The
    definitions of this part follow the specification: the number a
    finite double stands for, and the signed value computed from these
    numbers in exact arithmetic. *)

(** The rational number [±m·2^e] a finite double stands for (zeros stand
    for 0; infinities and NaN stand for no number and are given 0). *)
Definition exact (x : double) : QArith_base.Q :=
  match x with
  | S754_finite s m e =>
      QArith_base.Qmult
        (QArith_base.inject_Z (if s then Zneg m else Zpos m))
        (QArith_base.Qpower (QArith_base.inject_Z 2) e)
  | _ => QArith_base.inject_Z 0
  end.

(** [a·P_k.x + b·P_k.y − c] with [a = P_j.y − P_i.y], [b = P_i.x − P_j.x],
    [c = P_j.y·P_i.x − P_i.y·P_j.x], every operation exact. *)
Definition exact_signed_value (pi pj pk : point) : QArith_base.Q :=
  let a := QArith_base.Qminus (exact pj.2) (exact pi.2) in
  let b := QArith_base.Qminus (exact pi.1) (exact pj.1) in
  let c := QArith_base.Qminus
             (QArith_base.Qmult (exact pj.2) (exact pi.1))
             (QArith_base.Qmult (exact pi.2) (exact pj.1)) in
  QArith_base.Qminus
    (QArith_base.Qplus
       (QArith_base.Qmult a (exact pk.1))
       (QArith_base.Qmult b (exact pk.2)))
    c.

(** Four distinct points with integer coordinates: (0,0),
    (134217728,134217729), (1,1) and (134217727,134217728).  The third lies
    on one side of the line through the first two, the fourth on the
    other. *)
Definition skew_quad : list point :=
  [pt 0 0; pt (2 ^ 27) (2 ^ 27 + 1); pt 1 1; pt (2 ^ 27 - 1) (2 ^ 27)].

(** Case analysis on two doubles: zeros, infinities, NaN and finite
    values, with their signs. *)
Ltac double_cases x y :=
  destruct x as [[]|[]| |[] ? ?], y as [[]|[]| |[] ? ?].

(** * Loops *)

Lemma bind_Ok {A B} (a : A) (f : A → result B) : (Ok a ≫= f) = f a.
Proof. reflexivity. Qed.

Lemma vsize_app {A} (l1 l2 : list A) : vsize (l1 ++ l2) = vsize l1 + vsize l2.
Proof. unfold vsize. rewrite length_app. lia. Qed.

Lemma vsize_cons {A} (x : A) (l : list A) : vsize (x :: l) = 1 + vsize l.
Proof. unfold vsize. simpl. lia. Qed.

Lemma vsize_snoc {A} (l : list A) (x : A) : vsize (l ++ [x]) = vsize l + 1.
Proof. unfold vsize. rewrite length_app. simpl. lia. Qed.

Lemma vsize_nonneg {A} (l : list A) : 0 <= vsize l.
Proof. unfold vsize. lia. Qed.

Lemma at_middle {A} (l1 l2 : list A) (x : A) : at_ (l1 ++ x :: l2) (vsize l1) = Ok x.
Proof.
  unfold at_. rewrite vsize_app, vsize_cons.
  pose proof (vsize_nonneg l1). pose proof (vsize_nonneg l2).
  replace (0 <=? vsize l1) with true by (symmetry; apply Z.leb_le; lia).
  replace (vsize l1 <? vsize l1 + (1 + vsize l2)) with true
    by (symmetry; apply Z.ltb_lt; lia).
  simpl. unfold vsize. rewrite Nat2Z.id.
  rewrite list_lookup_middle by reflexivity. reflexivity.
Qed.

Lemma at_Ok_inv {A} (v : list A) (i : Z) (x : A) :
  at_ v i = Ok x → 0 <= i < vsize v ∧ v !! Z.to_nat i = Some x.
Proof.
  unfold at_. destruct (0 <=? i) eqn:H0; simpl; [|discriminate].
  destruct (i <? vsize v) eqn:H1; [|discriminate].
  apply Z.leb_le in H0. apply Z.ltb_lt in H1.
  destruct (v !! Z.to_nat i); [|discriminate].
  intros [= <-]. split; [lia|reflexivity].
Qed.

Lemma at_in_range {A} (v : list A) (i : Z) :
  0 <= i < vsize v → ∃ x, at_ v i = Ok x ∧ v !! Z.to_nat i = Some x.
Proof.
  intros Hi. unfold at_.
  replace (0 <=? i) with true by (symmetry; apply Z.leb_le; lia).
  replace (i <? vsize v) with true by (symmetry; apply Z.ltb_lt; lia).
  simpl. destruct (v !! Z.to_nat i) as [x|] eqn:Hx; [eauto|].
  apply lookup_ge_None in Hx. unfold vsize in Hi. lia.
Qed.

(** A loop over the indices of a segment of a vector whose body starts
    by reading the element at its index is a fold over that segment. *)
Lemma for_each_elements {A S} (v l1 l2 : list A)
    (body : Z → S → result S) (f : A → S → result S) (s : S) :
  v = l1 ++ l2 →
  (∀ k s, body k s = (at_ v k ≫= λ x, f x s)) →
  for_each (seqZ (vsize l1) (vsize l2)) body s = fold_elements f l2 s.
Proof.
  intros -> Hbody. revert l1 s Hbody.
  induction l2 as [|x l2 IH]; intros l1 s Hbody; [reflexivity|].
  rewrite seqZ_cons by (rewrite vsize_cons; pose proof (vsize_nonneg l2); lia).
  cbn [for_each fold_elements]. rewrite Hbody, at_middle, bind_Ok.
  destruct (f x s) as [s'| |]; try reflexivity. rewrite !bind_Ok.
  replace (Z.succ (vsize l1)) with (vsize (l1 ++ [x]))
    by (rewrite vsize_snoc; lia).
  replace (Z.pred (vsize (x :: l2))) with (vsize l2) by (rewrite vsize_cons; lia).
  apply IH. rewrite <- app_assoc. exact Hbody.
Qed.

Lemma for_range_elements {A S} (v : list A)
    (body : Z → S → result S) (f : A → S → result S) (s : S) :
  (∀ k s, body k s = (at_ v k ≫= λ x, f x s)) →
  for_range 0 (vsize v) body s = fold_elements f v s.
Proof.
  intros Hbody. unfold for_range. rewrite Z.sub_0_r.
  apply (for_each_elements v [] v); [reflexivity|exact Hbody].
Qed.

(** A loop whose body succeeds at every index succeeds. *)
Lemma for_each_total {S} (idx : list Z) (body : Z → S → result S) (s : S) :
  (∀ i s, i ∈ idx → ∃ s', body i s = Ok s') →
  ∃ s', for_each idx body s = Ok s'.
Proof.
  revert s. induction idx as [|i idx IH]; intros s Hbody; simpl; [eauto|].
  destruct (Hbody i s) as [s' ->]; [left|]. rewrite bind_Ok.
  apply IH. intros j t Hj. apply Hbody. right. exact Hj.
Qed.

(** An invariant of the body is an invariant of the loop. *)
Lemma for_each_invariant {S} (P : S → Prop) (idx : list Z)
    (body : Z → S → result S) (s s' : S) :
  (∀ i t t', i ∈ idx → P t → body i t = Ok t' → P t') →
  P s → for_each idx body s = Ok s' → P s'.
Proof.
  revert s. induction idx as [|i idx IH]; intros s Hbody Hs; simpl.
  - intros [= <-]. exact Hs.
  - destruct (body i s) as [t| |] eqn:Ht; try discriminate. rewrite bind_Ok.
    apply IH.
    + intros j u u' Hj. apply Hbody. right. exact Hj.
    + apply (Hbody i s t); [left|exact Hs|exact Ht].
Qed.

(** * Comparison of doubles and of points *)

Lemma lt_key (x y : double) :
  Double.is_nan x = false → Double.is_nan y = false →
  Double.lt x y = true ↔ key_lt (key x) (key y).
Proof.
  unfold Double.lt, SFltb, key_lt.
  destruct x as [sx|sx| |sx mx ex], y as [sy|sy| |sy my ey];
    try discriminate; intros _ _;
    try destruct sx; try destruct sy; simpl;
    try (split; [discriminate|lia]); try (split; [reflexivity|lia]);
    try (split; [lia|reflexivity]).
  - change (Pos.compare_cont Eq mx my) with (Pos.compare mx my).
    destruct (Z.compare_spec ex ey), (Pos.compare_spec mx my); simpl;
      split; intros; try lia; try discriminate; reflexivity.
  - change (Pos.compare_cont Eq mx my) with (Pos.compare mx my).
    destruct (Z.compare_spec ex ey), (Pos.compare_spec mx my); simpl;
      split; intros; try lia; try discriminate; reflexivity.
Qed.

Lemma eq_key (x y : double) :
  Double.is_nan x = false → Double.is_nan y = false →
  Double.eq x y = true ↔ key x = key y.
Proof.
  unfold Double.eq, SFeqb.
  destruct x as [sx|sx| |sx mx ex], y as [sy|sy| |sy my ey];
    try discriminate; intros _ _;
    try destruct sx; try destruct sy; simpl;
    try (split; [discriminate|intros [=]; lia]); try (split; reflexivity).
  - change (Pos.compare_cont Eq mx my) with (Pos.compare mx my).
    destruct (Z.compare_spec ex ey), (Pos.compare_spec mx my); simpl;
      split; intros H1; try discriminate; try reflexivity;
      try (injection H1; intros; lia); subst; reflexivity.
  - change (Pos.compare_cont Eq mx my) with (Pos.compare mx my).
    destruct (Z.compare_spec ex ey), (Pos.compare_spec mx my); simpl;
      split; intros H1; try discriminate; try reflexivity;
      try (injection H1; intros; lia); subst; reflexivity.
Qed.

(** [x < y] and [y < x] never hold together, NaN or not. *)
Lemma lt_asym (x y : double) : Double.lt x y = true → Double.lt y x = false.
Proof.
  unfold Double.lt, SFltb.
  destruct x as [sx|sx| |sx mx ex], y as [sy|sy| |sy my ey];
    try discriminate; try destruct sx; try destruct sy; simpl;
    try discriminate; try reflexivity.
  - change (Pos.compare_cont Eq mx my) with (Pos.compare mx my).
    change (Pos.compare_cont Eq my mx) with (Pos.compare my mx).
    destruct (Z.compare_spec ex ey), (Z.compare_spec ey ex); try lia;
      try discriminate; try reflexivity.
    destruct (Pos.compare_spec mx my), (Pos.compare_spec my mx); simpl;
      try lia; try discriminate; reflexivity.
  - change (Pos.compare_cont Eq mx my) with (Pos.compare mx my).
    change (Pos.compare_cont Eq my mx) with (Pos.compare my mx).
    destruct (Z.compare_spec ex ey), (Z.compare_spec ey ex); try lia;
      try discriminate; try reflexivity.
    destruct (Pos.compare_spec mx my), (Pos.compare_spec my mx); simpl;
      try lia; try discriminate; reflexivity.
Qed.

Lemma lt_irrefl (x : double) : Double.lt x x = false.
Proof.
  destruct (Double.lt x x) eqn:H; [|reflexivity].
  pose proof (lt_asym x x H). congruence.
Qed.

(** A value that compares equal to zero is neither below nor above it. *)
Lemma eq_zero_not_lt (x : double) :
  Double.eq x Double.zero = true →
  Double.lt x Double.zero = false ∧ Double.lt Double.zero x = false.
Proof.
  unfold Double.eq, Double.lt, Double.zero, SFeqb, SFltb.
  destruct x as [sx|sx| |sx mx ex]; try destruct sx; simpl;
    try discriminate; auto.
Qed.

Lemma key_eq_inj (k1 k2 : Z * Z * Z) :
  k1 = k2 ↔ k1.1.1 = k2.1.1 ∧ k1.1.2 = k2.1.2 ∧ k1.2 = k2.2.
Proof.
  destruct k1 as [[? ?] ?], k2 as [[? ?] ?]; simpl. split.
  - intros [= -> -> ->]. auto.
  - intros (-> & -> & ->). reflexivity.
Qed.

Lemma point_lt_pkey (x y : point) :
  no_nan x → no_nan y → point_lt x y = true ↔ pkey_lt (pkey x) (pkey y).
Proof.
  intros [Hx1 Hx2] [Hy1 Hy2]. unfold point_lt, pkey_lt, pkey; simpl.
  rewrite orb_true_iff, andb_true_iff, negb_true_iff.
  rewrite (lt_key _ _ Hx1 Hy1), (lt_key _ _ Hx2 Hy2).
  pose proof (lt_key _ _ Hy1 Hx1) as Hyx.
  rewrite key_eq_inj. unfold key_lt in *.
  destruct (Double.lt y.1 x.1).
  - assert (H : key_lt (key y.1) (key x.1)) by (apply Hyx; reflexivity).
    unfold key_lt in H. split; [intros [?|[? ?]]; [lia|discriminate]|lia].
  - assert (H : ¬ key_lt (key y.1) (key x.1))
      by (intros H; apply Hyx in H; discriminate).
    unfold key_lt in H. split; [intros [?|[? ?]]; lia|].
    intros [?|[? ?]]; [lia|]. right. split; [reflexivity|lia].
Qed.

Lemma point_eq_pkey (x y : point) :
  no_nan x → no_nan y → point_eq x y = true ↔ pkey x = pkey y.
Proof.
  intros [Hx1 Hx2] [Hy1 Hy2]. unfold point_eq, pkey.
  rewrite andb_true_iff, (eq_key _ _ Hx1 Hy1), (eq_key _ _ Hx2 Hy2).
  split; [intros [-> ->]; reflexivity|intros [= -> ->]; auto].
Qed.

Lemma pkey_lt_trans k1 k2 k3 : pkey_lt k1 k2 → pkey_lt k2 k3 → pkey_lt k1 k3.
Proof.
  unfold pkey_lt, key_lt. rewrite !key_eq_inj. lia.
Qed.

Lemma pkey_lt_irrefl k : ¬ pkey_lt k k.
Proof. unfold pkey_lt, key_lt. lia. Qed.

Lemma pkey_trichotomy k1 k2 : pkey_lt k1 k2 ∨ k1 = k2 ∨ pkey_lt k2 k1.
Proof.
  destruct k1 as [k1 l1], k2 as [k2 l2].
  assert (H : ∀ a b : Z * Z * Z, key_lt a b ∨ a = b ∨ key_lt b a)
    by (intros a b; rewrite key_eq_inj; unfold key_lt; lia).
  unfold pkey_lt; simpl.
  destruct (H k1 k2) as [?|[->|?]]; [auto| |auto].
  destruct (H l1 l2) as [?|[->|?]]; auto.
Qed.

(** [operator<] of points never holds both ways, NaN or not. *)
Lemma point_lt_asym (x y : point) : point_lt x y = true → point_lt y x = false.
Proof.
  unfold point_lt. intros H.
  apply orb_true_iff in H. destruct H as [H|H].
  - rewrite (lt_asym _ _ H), H. reflexivity.
  - apply andb_true_iff in H. destruct H as [H1 H2].
    apply negb_true_iff in H1. rewrite H1, (lt_asym _ _ H2).
    simpl. apply andb_false_r.
Qed.

Lemma point_lt_irrefl (x : point) : point_lt x x = false.
Proof.
  destruct (point_lt x x) eqn:H; [|reflexivity].
  pose proof (point_lt_asym x x H). congruence.
Qed.

Lemma point_lt_trans (x y z : point) :
  no_nan x → no_nan y → no_nan z →
  point_lt x y = true → point_lt y z = true → point_lt x z = true.
Proof.
  intros Hx Hy Hz.
  rewrite (point_lt_pkey x y), (point_lt_pkey y z), (point_lt_pkey x z) by assumption.
  apply pkey_lt_trans.
Qed.

(** Two points neither of which is less than the other compare equal. *)
Lemma point_equiv_eq (x y : point) :
  no_nan x → no_nan y →
  point_lt x y = false → point_lt y x = false → point_eq x y = true.
Proof.
  intros Hx Hy Hxy Hyx. apply (point_eq_pkey x y Hx Hy).
  destruct (pkey_trichotomy (pkey x) (pkey y)) as [H|[H|H]]; [|exact H|].
  - apply (point_lt_pkey x y Hx Hy) in H. congruence.
  - apply (point_lt_pkey y x Hy Hx) in H. congruence.
Qed.

Lemma point_eq_not_lt (x y : point) :
  no_nan x → no_nan y → point_eq x y = true → point_lt x y = false.
Proof.
  intros Hx Hy H. apply (point_eq_pkey x y Hx Hy) in H.
  destruct (point_lt x y) eqn:Hlt; [|reflexivity].
  apply (point_lt_pkey x y Hx Hy) in Hlt. rewrite H in Hlt.
  destruct (pkey_lt_irrefl _ Hlt).
Qed.

Lemma point_eq_sym (x y : point) :
  no_nan x → no_nan y → point_eq x y = true → point_eq y x = true.
Proof.
  intros Hx Hy H. apply (point_eq_pkey y x Hy Hx).
  symmetry. apply (point_eq_pkey x y Hx Hy). exact H.
Qed.

(** * The edge enumerator *)

Lemma wrap64_small (z : Z) : 0 <= z < 2 ^ 64 → wrap64 z = z.
Proof. intros H. unfold wrap64. apply Z.mod_small. exact H. Qed.

Lemma wrap64_range (z : Z) : 0 <= wrap64 z < 2 ^ 64.
Proof. unfold wrap64. apply Z.mod_pos_bound. reflexivity. Qed.

Lemma scan_step_flag_step pts a b c k flags :
  scan_step pts a b c k flags = (at_ pts k ≫= λ pk, flag_step a b c pk flags).
Proof. destruct flags as [LT GT]. reflexivity. Qed.

Lemma flag_step_fold a b c (l : list point) (LT GT : bool) :
  fold_elements (flag_step a b c) l (LT, GT)
  = Ok (LT || existsb (λ pk, Double.lt (line_value a b c pk) Double.zero) l,
        GT || existsb (λ pk, Double.lt Double.zero (line_value a b c pk)) l).
Proof.
  revert LT GT. induction l as [|pk l IH]; intros LT GT; simpl.
  - rewrite !orb_false_r. reflexivity.
  - destruct (Double.lt (line_value a b c pk) Double.zero) eqn:Hneg.
    + rewrite (lt_asym _ _ Hneg), bind_Ok, IH. simpl.
      rewrite orb_true_r. reflexivity.
    + destruct (Double.lt Double.zero (line_value a b c pk)) eqn:Hpos;
        rewrite bind_Ok, IH; simpl; [rewrite orb_true_r|]; reflexivity.
Qed.

(** The scan of lines 200-212 computes the two flags of the specification. *)
Lemma scan_flags (pts : list point) (pi pj : point) :
  scan pts (Double.sub pj.2 pi.2) (Double.sub pi.1 pj.1)
       (Double.sub (Double.mul pj.2 pi.1) (Double.mul pi.2 pj.1))
  = Ok (Spec.hasNegative pts pi pj, Spec.hasPositive pts pi pj).
Proof.
  unfold scan.
  rewrite (for_range_elements pts _ (flag_step _ _ _))
    by apply scan_step_flag_step.
  rewrite flag_step_fold. reflexivity.
Qed.

Lemma pair_step_accept_step pts i pi j ret :
  at_ pts i = Ok pi →
  pair_step pts i j ret = (at_ pts j ≫= λ pj, accept_step pts pi pj ret).
Proof.
  intros Hi. unfold pair_step, accept_step.
  destruct (at_ pts j) as [pj| |]; try reflexivity.
  rewrite !bind_Ok, Hi, bind_Ok. cbv zeta. rewrite scan_flags, bind_Ok.
  unfold Spec.accepted.
  destruct (Spec.hasNegative pts pi pj), (Spec.hasPositive pts pi pj); reflexivity.
Qed.

Lemma accept_step_fold pts pi (l : list point) ret :
  fold_elements (accept_step pts pi) l ret
  = Ok (ret ++ map (pair pi) (filter (λ pj, Spec.accepted pts pi pj = true) l)).
Proof.
  revert ret. induction l as [|pj l IH]; intros ret; cbn [fold_elements].
  - rewrite filter_nil. simpl. rewrite app_nil_r. reflexivity.
  - change (accept_step pts pi pj ret)
      with (Ok (if Spec.accepted pts pi pj then ret ++ [(pi, pj)] else ret)).
    rewrite bind_Ok, IH.
    destruct (Spec.accepted pts pi pj) eqn:Hacc.
    + rewrite filter_cons_True by exact Hacc. simpl.
      rewrite <- app_assoc. reflexivity.
    + rewrite filter_cons_False by congruence. reflexivity.
Qed.

(** The loop over [j] for the origin at index [vsize l1]. *)
Lemma loop_j pts l1 pi l2 ret :
  pts = l1 ++ pi :: l2 → fits_size_t pts →
  for_range (wrap64 (vsize l1 + 1)) (vsize pts) (pair_step pts (vsize l1)) ret
  = Ok (ret ++ map (pair pi) (filter (λ pj, Spec.accepted pts pi pj = true) l2)).
Proof.
  intros Hpts Hfit. unfold fits_size_t in Hfit.
  assert (Hsz : vsize pts = vsize (l1 ++ [pi]) + vsize l2).
  { rewrite Hpts, vsize_snoc, vsize_app, vsize_cons. lia. }
  pose proof (vsize_nonneg l1). pose proof (vsize_nonneg l2).
  pose proof (vsize_snoc l1 pi) as Hone.
  unfold for_range. rewrite wrap64_small by lia.
  rewrite <- Hone. replace (vsize pts - vsize (l1 ++ [pi])) with (vsize l2) by lia.
  rewrite (for_each_elements pts (l1 ++ [pi]) l2 _ (accept_step pts pi)).
  - apply accept_step_fold.
  - rewrite Hpts, <- app_assoc. reflexivity.
  - intros k s. apply pair_step_accept_step. rewrite Hpts. apply at_middle.
Qed.

(** The loop over [i], from the origin at index [vsize l1] on. *)
Lemma loop_i pts l1 rest ret :
  pts = l1 ++ rest → fits_size_t pts →
  for_each (seqZ (vsize l1) (vsize rest - 1))
    (λ i, for_range (wrap64 (i + 1)) (vsize pts) (pair_step pts i)) ret
  = Ok (ret ++ Spec.edges_from pts rest).
Proof.
  intros Hpts Hfit. revert l1 ret Hpts.
  induction rest as [|pi rest IH]; intros l1 ret Hpts.
  - simpl. rewrite app_nil_r. reflexivity.
  - destruct rest as [|pj rest].
    + simpl. rewrite app_nil_r. reflexivity.
    + pose proof (vsize_nonneg rest) as Hrest.
      rewrite seqZ_cons by (rewrite !vsize_cons; lia).
      cbn [for_each]. rewrite (loop_j pts l1 pi (pj :: rest) ret Hpts Hfit), bind_Ok.
      replace (Z.succ (vsize l1)) with (vsize (l1 ++ [pi]))
        by (rewrite vsize_snoc; lia).
      replace (Z.pred (vsize (pi :: pj :: rest) - 1)) with (vsize (pj :: rest) - 1)
        by (rewrite !vsize_cons; lia).
      rewrite IH by (rewrite <- app_assoc; exact Hpts).
      cbn [Spec.edges_from]. rewrite <- app_assoc. reflexivity.
Qed.

(** The enumerator appends the accepted pairs, in the order of generation. *)
Lemma brute_force_convex_hull_edges pts ret :
  1 <= vsize pts → fits_size_t pts →
  brute_force_convex_hull pts ret = Ok (ret ++ Spec.edges pts).
Proof.
  intros Hne Hfit. unfold brute_force_convex_hull, for_range.
  rewrite wrap64_small by (unfold fits_size_t in Hfit; lia).
  rewrite Z.sub_0_r. apply (loop_i pts [] pts ret); [reflexivity|exact Hfit].
Qed.

(** Every index the enumerator reads is inside the vector, whatever the
    size of the vector. *)
Lemma brute_force_convex_hull_total pts ret :
  ∃ sgmts, brute_force_convex_hull pts ret = Ok sgmts.
Proof.
  unfold brute_force_convex_hull, for_range.
  apply for_each_total. intros i s Hi.
  apply elem_of_seqZ in Hi. pose proof (wrap64_range (vsize pts - 1)) as Hb.
  apply for_each_total. intros j t Hj. apply elem_of_seqZ in Hj.
  assert (Hw : wrap64 (i + 1) = i + 1) by (apply wrap64_small; lia).
  rewrite Hw in Hj.
  destruct (at_in_range pts i) as (pi & Hpi & _); [lia|].
  destruct (at_in_range pts j) as (pj & Hpj & _); [lia|].
  rewrite (pair_step_accept_step pts i pi j t Hpi), Hpj, bind_Ok.
  unfold accept_step. eauto.
Qed.

(** The accepted pairs are the pairs of an earlier and a later element
    that pass the acceptance rule. *)
Lemma elem_of_edges_from pts rest (pi pj : point) :
  (pi, pj) ∈ Spec.edges_from pts rest ↔
  (∃ i j : nat, (i < j)%nat ∧ rest !! i = Some pi ∧ rest !! j = Some pj)
  ∧ Spec.accepted pts pi pj = true.
Proof.
  induction rest as [|x rest IH]; simpl.
  - split; [intros H; inversion H|intros [(i & j & _ & H & _) _]; discriminate].
  - rewrite elem_of_app, list_elem_of_fmap, IH. split.
    + intros [(y & [= <- <-] & Hy)|[(i & j & Hij & Hi & Hj) Hacc]].
      * apply list_elem_of_filter in Hy. destruct Hy as [Hacc Hy].
        apply list_elem_of_lookup in Hy. destruct Hy as [k Hk].
        split; [|exact Hacc]. exists 0%nat, (S k). split; [lia|auto].
      * split; [|exact Hacc]. exists (S i), (S j). split; [lia|auto].
    + intros [(i & j & Hij & Hi & Hj) Hacc].
      destruct j as [|j]; [lia|]. simpl in Hj. destruct i as [|i].
      * injection Hi as ->. left. exists pj. split; [reflexivity|].
        apply list_elem_of_filter. split; [exact Hacc|].
        apply list_elem_of_lookup. eauto.
      * right. split; [|exact Hacc]. exists i, j. split; [lia|auto].
Qed.

Lemma elem_of_edges pts (pi pj : point) :
  (pi, pj) ∈ Spec.edges pts ↔
  (∃ i j : nat, (i < j)%nat ∧ pts !! i = Some pi ∧ pts !! j = Some pj)
  ∧ Spec.accepted pts pi pj = true.
Proof. apply elem_of_edges_from. Qed.

(** * The set of points *)

Lemma set_insert_elem (x q : point) (s : list point) :
  q ∈ set_insert x s → q = x ∨ q ∈ s.
Proof.
  induction s as [|y s IH]; simpl.
  - intros H. apply list_elem_of_singleton in H. auto.
  - destruct (point_lt x y).
    + intros H. apply elem_of_cons in H. exact H.
    + destruct (point_lt y x); [|auto].
      intros H. apply elem_of_cons in H. destruct H as [->|H].
      * right. left.
      * destruct (IH H) as [?|?]; [auto|]. right. right. assumption.
Qed.

Lemma set_insert_keeps (x q : point) (s : list point) :
  q ∈ s → q ∈ set_insert x s.
Proof.
  induction s as [|y s IH]; simpl; [intros H; inversion H|].
  destruct (point_lt x y); [intros H; right; exact H|].
  destruct (point_lt y x); [|auto].
  intros H. apply elem_of_cons in H. destruct H as [->|H]; [left|right; auto].
Qed.

(** After the insertion the set holds an element equivalent to [x]. *)
Lemma set_insert_has (x : point) (s : list point) :
  ∃ q, q ∈ set_insert x s ∧ point_lt q x = false ∧ point_lt x q = false.
Proof.
  induction s as [|y s IH]; simpl.
  - exists x. split; [left|]. split; apply point_lt_irrefl.
  - destruct (point_lt x y) eqn:Hxy.
    + exists x. split; [left|]. split; apply point_lt_irrefl.
    + destruct (point_lt y x) eqn:Hyx.
      * destruct IH as (q & Hq & H1 & H2). exists q. split; [right; exact Hq|auto].
      * exists y. split; [left|auto].
Qed.

Lemma set_insert_sorted (x : point) (s : list point) :
  no_nan x → Forall no_nan s →
  StronglySorted (λ p q, point_lt p q = true) s →
  StronglySorted (λ p q, point_lt p q = true) (set_insert x s).
Proof.
  intros Hx Hs Hsorted. induction Hsorted as [|y s Hsorted IH Hy]; simpl.
  - repeat constructor.
  - apply Forall_cons in Hs. destruct Hs as [Hny Hs].
    destruct (point_lt x y) eqn:Hxy.
    + constructor; [constructor; assumption|].
      constructor; [exact Hxy|].
      rewrite Forall_forall in Hy, Hs |- *. intros q Hq.
      apply (point_lt_trans x y q); auto.
    + destruct (point_lt y x) eqn:Hyx; [|constructor; assumption].
      constructor; [apply IH; exact Hs|].
      rewrite Forall_forall in Hy |- *. intros q Hq.
      apply set_insert_elem in Hq. destruct Hq as [->|Hq]; auto.
Qed.

Lemma transform_insert_elem {A} (v : list A) (f : A → point) (s : list point) q :
  q ∈ transform_insert v s f → q ∈ s ∨ ∃ e, e ∈ v ∧ q = f e.
Proof.
  unfold transform_insert. revert s.
  induction v as [|e v IH]; intros s; simpl; [auto|].
  intros H. apply IH in H. destruct H as [H|(e' & He' & ->)].
  - apply set_insert_elem in H. destruct H as [->|H]; [|auto].
    right. exists e. split; [left|reflexivity].
  - right. exists e'. split; [right; exact He'|reflexivity].
Qed.

Lemma transform_insert_keeps {A} (v : list A) (f : A → point) (s : list point) q :
  q ∈ s → q ∈ transform_insert v s f.
Proof.
  unfold transform_insert. revert s.
  induction v as [|e v IH]; intros s; simpl; [auto|].
  intros H. apply IH, set_insert_keeps, H.
Qed.

Lemma transform_insert_has {A} (v : list A) (f : A → point) (s : list point) e :
  e ∈ v →
  ∃ q, q ∈ transform_insert v s f
       ∧ point_lt q (f e) = false ∧ point_lt (f e) q = false.
Proof.
  unfold transform_insert. revert s.
  induction v as [|e' v IH]; intros s He; [inversion He|].
  apply elem_of_cons in He. simpl. destruct He as [->|He]; [|apply IH, He].
  destruct (set_insert_has (f e') s) as (q & Hq & H1 & H2).
  exists q. split; [|auto].
  apply (transform_insert_keeps v f), Hq.
Qed.

Lemma transform_insert_sorted {A} (v : list A) (f : A → point) (s : list point) :
  Forall (λ e, no_nan (f e)) v → Forall no_nan s →
  StronglySorted (λ p q, point_lt p q = true) s →
  StronglySorted (λ p q, point_lt p q = true) (transform_insert v s f)
  ∧ Forall no_nan (transform_insert v s f).
Proof.
  unfold transform_insert. revert s.
  induction v as [|e v IH]; intros s Hv Hs Hsorted; simpl; [auto|].
  apply Forall_cons in Hv. destruct Hv as [He Hv].
  apply IH; [exact Hv| |apply set_insert_sorted; assumption].
  rewrite Forall_forall in Hs |- *. intros q Hq.
  apply set_insert_elem in Hq. destruct Hq as [->|Hq]; auto.
Qed.

(** * find_hull on the store *)

Lemma copy_back_inserter_run (s : list point) (r : ref) (σ : state) (w : list point) :
  vectors σ !! r = Some w →
  copy_back_inserter s r σ
  = (Ok (), State (<[r := w ++ s]> (vectors σ)) (calls σ)).
Proof.
  revert σ w. induction s as [|x s IH]; intros σ w Hr; simpl.
  - rewrite app_nil_r, insert_id by exact Hr. destruct σ; reflexivity.
  - unfold mbind, M_bind, push_back. rewrite Hr.
    rewrite (IH _ (w ++ [x])) by (simpl; apply lookup_insert_eq).
    simpl. rewrite insert_insert_eq, <- app_assoc. reflexivity.
Qed.

Lemma run_bind {A B} (m : M A) (f : A → M B) (σ σ' : state) (a : A) :
  m σ = (Ok a, σ') → (m ≫= f) σ = f a σ'.
Proof. intros H. unfold mbind, M_bind. rewrite H. reflexivity. Qed.

Lemma run_load (r : ref) (σ : state) (v : list point) :
  vectors σ !! r = Some v → load r σ = (Ok v, σ).
Proof. intros H. unfold load. rewrite H. reflexivity. Qed.

Lemma run_size (r : ref) (σ : state) (v : list point) :
  vectors σ !! r = Some v →
  (load r ≫= λ v, mret (vsize v)) σ = (Ok (vsize v), σ).
Proof. intros H. rewrite (run_bind _ _ _ _ _ (run_load _ _ _ H)). reflexivity. Qed.

(** What a call of [find_hull] does, for references to vectors [v] (the
    points) and [w] (the output), the same object or not. *)
Lemma find_hull_run (pts ret_hull_points : ref) (σ : state) (v w : list point) :
  vectors σ !! pts = Some v →
  vectors σ !! ret_hull_points = Some w →
  match v with
  | [] => find_hull pts ret_hull_points σ = (Throw no_points, σ)
  | [x] =>
      find_hull pts ret_hull_points σ
      = (Ok (), State (<[ret_hull_points := w ++ [x]]> (vectors σ)) (calls σ))
  | _ =>
      ∃ sgmts, brute_force_convex_hull v [] = Ok sgmts ∧
      find_hull pts ret_hull_points σ
      = (Ok (), State (<[ret_hull_points := w ++ endpoints_set sgmts]> (vectors σ))
                      (calls σ ++ [v]))
  end.
Proof.
  intros Hp Hr. pose proof (run_size _ _ _ Hp) as Hsize.
  destruct v as [|x [|y v]].
  - unfold find_hull. rewrite (run_bind _ _ _ _ _ Hsize). reflexivity.
  - unfold find_hull. rewrite (run_bind _ _ _ _ _ Hsize). simpl.
    rewrite (run_bind _ _ _ _ _ Hsize). simpl.
    assert (Hfront : front pts σ = (Ok x, σ)).
    { unfold front. rewrite (run_bind _ _ _ _ _ (run_load _ _ _ Hp)). reflexivity. }
    rewrite (run_bind _ _ _ _ _ Hfront). unfold push_back. rewrite Hr. reflexivity.
  - destruct (brute_force_convex_hull_total (x :: y :: v) []) as [sgmts Hs].
    exists sgmts. split; [exact Hs|].
    assert (H0 : (vsize (x :: y :: v) =? 0) = false)
      by (apply Z.eqb_neq; rewrite !vsize_cons; pose proof (vsize_nonneg v); lia).
    assert (H1 : (vsize (x :: y :: v) =? 1) = false)
      by (apply Z.eqb_neq; rewrite !vsize_cons; pose proof (vsize_nonneg v); lia).
    unfold find_hull. rewrite (run_bind _ _ _ _ _ Hsize), H0.
    rewrite (run_bind _ _ _ _ _ Hsize), H1.
    assert (Hcall : call_brute_force_convex_hull pts [] σ
                    = (Ok sgmts, State (vectors σ) (calls σ ++ [x :: y :: v]))).
    { unfold call_brute_force_convex_hull.
      rewrite (run_bind _ _ _ _ _ (run_load _ _ _ Hp)).
      unfold mbind, M_bind, lift, log_call. rewrite Hs. reflexivity. }
    rewrite (run_bind _ _ _ _ _ Hcall).
    rewrite (copy_back_inserter_run _ _ _ w) by exact Hr. reflexivity.
Qed.

(** What [main]'s call computes. *)
Lemma computeHull_run (pts : list point) :
  match pts with
  | [] => computeHull pts = Throw no_points ∧ computeHull_calls pts = []
  | [x] => computeHull pts = Ok [x] ∧ computeHull_calls pts = []
  | _ =>
      ∃ sgmts, brute_force_convex_hull pts [] = Ok sgmts ∧
      computeHull pts = Ok (endpoints_set sgmts) ∧ computeHull_calls pts = [pts]
  end.
Proof.
  assert (Hp : vectors (main_state pts) !! pts_ref = Some pts) by reflexivity.
  assert (Hr : vectors (main_state pts) !! hull_pts_ref = Some []) by reflexivity.
  pose proof (find_hull_run _ _ _ _ _ Hp Hr) as Hrun.
  unfold computeHull, computeHull_calls.
  destruct pts as [|x [|y v]].
  - rewrite Hrun. auto.
  - rewrite Hrun. auto.
  - destruct Hrun as (sgmts & Hs & ->). exists sgmts.
    split; [exact Hs|]. cbn [vectors calls snd]. rewrite lookup_insert_eq. auto.
Qed.

(** * Facts about the acceptance rule *)

Lemma hasNegative_exists pts pi pj :
  Spec.hasNegative pts pi pj = true ↔
  ∃ pk, pk ∈ pts ∧ Double.lt (Spec.signed_value pi pj pk) Double.zero = true.
Proof.
  unfold Spec.hasNegative. rewrite existsb_exists.
  split; intros (pk & Hk & H); exists pk; (split; [|exact H]);
    apply list_elem_of_In; exact Hk.
Qed.

Lemma hasPositive_exists pts pi pj :
  Spec.hasPositive pts pi pj = true ↔
  ∃ pk, pk ∈ pts ∧ Double.lt Double.zero (Spec.signed_value pi pj pk) = true.
Proof.
  unfold Spec.hasPositive. rewrite existsb_exists.
  split; intros (pk & Hk & H); exists pk; (split; [|exact H]);
    apply list_elem_of_In; exact Hk.
Qed.

Lemma accepted_iff pts pi pj :
  Spec.accepted pts pi pj = true ↔
  ¬ ((∃ pk, pk ∈ pts ∧ Double.lt (Spec.signed_value pi pj pk) Double.zero = true)
     ∧ (∃ pk, pk ∈ pts ∧ Double.lt Double.zero (Spec.signed_value pi pj pk) = true)).
Proof.
  rewrite <- hasNegative_exists, <- hasPositive_exists. unfold Spec.accepted.
  destruct (Spec.hasNegative pts pi pj), (Spec.hasPositive pts pi pj); simpl;
    split; try reflexivity; try discriminate; intros H.
  - destruct H. auto.
  - intros [_ ?]. discriminate.
  - intros [? _]. discriminate.
  - intros [? _]. discriminate.
Qed.

(** A smaller set of points sets no more flags. *)
Lemma accepted_subset pts pts' pi pj :
  (∀ p, p ∈ pts' → p ∈ pts) →
  Spec.accepted pts pi pj = true → Spec.accepted pts' pi pj = true.
Proof.
  intros Hsub. rewrite !accepted_iff. intros H [(p & Hp & Hneg) (q & Hq & Hpos)].
  apply H. split; [exists p|exists q]; auto.
Qed.

(** Whatever the size of the vector, each segment the enumerator appends is
    a pair of points of the vector that passes the acceptance rule. *)
Lemma brute_force_convex_hull_sound pts ret sgmts :
  brute_force_convex_hull pts ret = Ok sgmts →
  ∀ s, s ∈ sgmts →
    s ∈ ret ∨ (s.1 ∈ pts ∧ s.2 ∈ pts ∧ Spec.accepted pts s.1 s.2 = true).
Proof.
  unfold brute_force_convex_hull, for_range.
  apply (for_each_invariant
    (λ t, ∀ s, s ∈ t →
       s ∈ ret ∨ (s.1 ∈ pts ∧ s.2 ∈ pts ∧ Spec.accepted pts s.1 s.2 = true)));
    [|auto].
  intros i t t' _ Ht.
  apply (for_each_invariant
    (λ t, ∀ s, s ∈ t →
       s ∈ ret ∨ (s.1 ∈ pts ∧ s.2 ∈ pts ∧ Spec.accepted pts s.1 s.2 = true)));
    [|exact Ht].
  clear t t' Ht. intros j t t' _ Ht Hstep s Hs.
  destruct (at_ pts i) as [pi| |] eqn:Hi.
  - rewrite (pair_step_accept_step pts i pi j t Hi) in Hstep.
    destruct (at_ pts j) as [pj| |] eqn:Hj; try discriminate.
    rewrite bind_Ok in Hstep. unfold accept_step in Hstep.
    injection Hstep as <-.
    destruct (Spec.accepted pts pi pj) eqn:Hacc; [|auto].
    apply elem_of_app in Hs. destruct Hs as [Hs|Hs]; [auto|].
    apply list_elem_of_singleton in Hs. subst s. right. simpl.
    apply at_Ok_inv in Hi, Hj. destruct Hi as [_ Hi], Hj as [_ Hj].
    repeat split; [| |exact Hacc]; eapply list_elem_of_lookup_2; eassumption.
  - unfold pair_step in Hstep. destruct (at_ pts j); try discriminate.
    rewrite bind_Ok, Hi in Hstep. discriminate.
  - unfold pair_step in Hstep. destruct (at_ pts j); try discriminate.
    rewrite bind_Ok, Hi in Hstep. discriminate.
Qed.

Lemma sorted_lookup {A} (R : A → A → Prop) (l : list A) (i j : nat) (p q : A) :
  StronglySorted R l → (i < j)%nat →
  l !! i = Some p → l !! j = Some q → R p q.
Proof.
  intros Hsorted. revert i j.
  induction Hsorted as [|x l Hsorted IH Hx]; intros i j Hij Hi Hj; [discriminate|].
  destruct j as [|j]; [lia|]. simpl in Hj. destruct i as [|i].
  - injection Hi as ->. rewrite Forall_forall in Hx. apply Hx.
    eapply list_elem_of_lookup_2. exact Hj.
  - simpl in Hi. apply (IH i j); [lia|assumption..].
Qed.

(** The set of endpoints: ascending, made of endpoints, and holding an
    element equivalent to each endpoint. *)
Lemma endpoints_set_sorted (sgmts : list line_segment) :
  Forall (λ s, no_nan s.1 ∧ no_nan s.2) sgmts →
  StronglySorted (λ p q, point_lt p q = true) (endpoints_set sgmts)
  ∧ Forall no_nan (endpoints_set sgmts).
Proof.
  intros Hs. unfold endpoints_set.
  destruct (transform_insert_sorted sgmts get_first []) as [H1 H2].
  - eapply Forall_impl; [exact Hs|]. intros s [? _]. assumption.
  - constructor.
  - constructor.
  - apply transform_insert_sorted; [|assumption..].
    eapply Forall_impl; [exact Hs|]. intros s [_ ?]. assumption.
Qed.

Lemma endpoints_set_elem (sgmts : list line_segment) (q : point) :
  q ∈ endpoints_set sgmts →
  ∃ s, s ∈ sgmts ∧ (q = get_first s ∨ q = get_second s).
Proof.
  unfold endpoints_set. intros H.
  apply transform_insert_elem in H. destruct H as [H|(s & Hs & ->)]; [|eauto].
  apply transform_insert_elem in H. destruct H as [H|(s & Hs & ->)]; [|eauto].
  inversion H.
Qed.

Lemma endpoints_set_has (sgmts : list line_segment) (s : line_segment) :
  s ∈ sgmts →
  (∃ q, q ∈ endpoints_set sgmts
        ∧ point_lt q (get_first s) = false ∧ point_lt (get_first s) q = false)
  ∧ (∃ q, q ∈ endpoints_set sgmts
        ∧ point_lt q (get_second s) = false ∧ point_lt (get_second s) q = false).
Proof.
  intros Hs. unfold endpoints_set. split.
  - destruct (transform_insert_has sgmts get_first [] s Hs) as (q & Hq & H).
    exists q. split; [|exact H]. apply transform_insert_keeps, Hq.
  - apply transform_insert_has, Hs.
Qed.

Lemma at_lookup {A} (v : list A) (i : nat) (x : A) :
  v !! i = Some x → at_ v (Z.of_nat i) = Ok x.
Proof.
  intros H. pose proof (lookup_lt_Some _ _ _ H) as Hlt.
  destruct (at_in_range v (Z.of_nat i)) as (y & Hy & Hy'); [unfold vsize; lia|].
  rewrite Nat2Z.id, H in Hy'. injection Hy' as <-. exact Hy.
Qed.

Lemma point_lt_not_eq (x y : point) :
  no_nan x → no_nan y → point_lt x y = true → point_eq x y = false.
Proof.
  intros Hx Hy Hlt. destruct (point_eq x y) eqn:Heq; [|reflexivity].
  rewrite (point_eq_not_lt x y Hx Hy Heq) in Hlt. discriminate.
Qed.

Lemma sorted_NoDup (l : list point) :
  StronglySorted (λ p q, point_lt p q = true) l → NoDup l.
Proof.
  intros Hsorted. apply NoDup_alt. intros i j x Hi Hj.
  destruct (Nat.lt_total i j) as [Hij|[Hij|Hij]]; [|exact Hij|].
  - pose proof (sorted_lookup _ _ _ _ _ _ Hsorted Hij Hi Hj) as H.
    simpl in H. rewrite point_lt_irrefl in H. discriminate.
  - pose proof (sorted_lookup _ _ _ _ _ _ Hsorted Hij Hj Hi) as H.
    simpl in H. rewrite point_lt_irrefl in H. discriminate.
Qed.

Lemma segments_no_nan pts sgmts :
  Forall no_nan pts → brute_force_convex_hull pts [] = Ok sgmts →
  Forall (λ s, no_nan s.1 ∧ no_nan s.2) sgmts.
Proof.
  intros Hpts Hs. apply Forall_forall. intros s Hin.
  destruct (brute_force_convex_hull_sound pts [] sgmts Hs s Hin)
    as [H|(H1 & H2 & _)]; [inversion H|].
  split; eapply Forall_forall; eassumption.
Qed.

(** The calls [copy_back_inserter] leaves in the log are those it found. *)
Lemma copy_back_inserter_calls (s : list point) (r : ref) (σ : state) :
  calls (copy_back_inserter s r σ).2 = calls σ.
Proof.
  revert σ. induction s as [|x s IH]; intros σ; [reflexivity|].
  simpl. unfold mbind, M_bind, push_back.
  destruct (vectors σ !! r); [|reflexivity].
  rewrite IH. reflexivity.
Qed.

(** Every call of the enumerator that [find_hull] makes is on a vector of
    at least two points. *)
Lemma find_hull_calls (pts ret_hull_points : ref) (σ : state) :
  calls (find_hull pts ret_hull_points σ).2 = calls σ
  ∨ ∃ v, vectors σ !! pts = Some v ∧ 2 <= vsize v
         ∧ calls (find_hull pts ret_hull_points σ).2 = calls σ ++ [v].
Proof.
  destruct (vectors σ !! pts) as [v|] eqn:Hp.
  - pose proof (run_size _ _ _ Hp) as Hsize.
    unfold find_hull. rewrite (run_bind _ _ _ _ _ Hsize).
    destruct (vsize v =? 0) eqn:H0; [left; reflexivity|].
    rewrite (run_bind _ _ _ _ _ Hsize).
    destruct (vsize v =? 1) eqn:H1.
    + left. unfold mbind, M_bind, front.
      unfold mbind, M_bind. rewrite (run_load _ _ _ Hp). unfold lift.
      destruct (at_ v 0); try reflexivity.
      unfold push_back. destruct (vectors σ !! ret_hull_points); reflexivity.
    + right. exists v. split; [reflexivity|].
      apply Z.eqb_neq in H0, H1. pose proof (vsize_nonneg v). split; [lia|].
      destruct (brute_force_convex_hull_total v []) as [sgmts Hs].
      assert (Hcall : call_brute_force_convex_hull pts [] σ
                      = (Ok sgmts, State (vectors σ) (calls σ ++ [v]))).
      { unfold call_brute_force_convex_hull.
        rewrite (run_bind _ _ _ _ _ (run_load _ _ _ Hp)).
        unfold mbind, M_bind, lift, log_call. rewrite Hs. reflexivity. }
      rewrite (run_bind _ _ _ _ _ Hcall), copy_back_inserter_calls. reflexivity.
  - left. unfold find_hull, mbind, M_bind, load. rewrite Hp. reflexivity.
Qed.

(** * Exchanging the two points of a line

    The line through [pj] and [pi] has the coefficients of the line
    through [pi] and [pj] with the opposite signs, rounding included, so
    the signed values are opposite up to the sign of a zero. *)

Lemma binary_round_aux_opp prec emax sx mx ex lx :
  SFopp (binary_round_aux prec emax sx mx ex lx)
  = binary_round_aux prec emax (negb sx) mx ex lx.
Proof.
  unfold binary_round_aux.
  destruct (shr_fexp prec emax mx ex lx) as [mrs' e'].
  destruct (shr_fexp prec emax _ e' loc_Exact) as [mrs'' e''].
  destruct (shr_m mrs''); [reflexivity| |reflexivity].
  destruct (Z.leb e'' (emax - prec)); reflexivity.
Qed.

Lemma binary_round_opp prec emax sx mx ex :
  SFopp (binary_round prec emax sx mx ex) = binary_round prec emax (negb sx) mx ex.
Proof.
  unfold binary_round. destruct (shl_align _ _ _) as [mz ez].
  apply binary_round_aux_opp.
Qed.

Lemma binary_normalize_opp prec emax m e :
  nz (binary_normalize prec emax (- m) e false)
  = nz (SFopp (binary_normalize prec emax m e false)).
Proof.
  destruct m; simpl; [reflexivity| |];
    rewrite binary_round_opp; reflexivity.
Qed.

Lemma sub_swap (x y : double) :
  nz (Double.sub y x) = nz (SFopp (Double.sub x y)).
Proof.
  unfold Double.sub.
  destruct x as [sx|sx| |sx mx ex], y as [sy|sy| |sy my ey];
    try destruct sx; try destruct sy; try reflexivity.
  all: unfold SFsub; rewrite (Z.min_comm ey ex), <- binary_normalize_opp;
    f_equal; f_equal; cbv beta iota delta [cond_Zopp]; lia.
Qed.

Lemma mul_opp (x y : double) :
  Double.mul (SFopp x) y = SFopp (Double.mul x y).
Proof.
  unfold Double.mul.
  destruct x as [sx|sx| |sx mx ex], y as [sy|sy| |sy my ey];
    try destruct sx; try destruct sy; try reflexivity;
    simpl; rewrite binary_round_aux_opp; reflexivity.
Qed.

Lemma mul_nz (x y : double) : nz (Double.mul x y) = nz (Double.mul (nz x) y).
Proof.
  double_cases x y; reflexivity.
Qed.

Lemma add_opp (x y : double) :
  nz (Double.add (SFopp x) (SFopp y)) = nz (SFopp (Double.add x y)).
Proof.
  unfold Double.add.
  destruct x as [sx|sx| |sx mx ex], y as [sy|sy| |sy my ey];
    try destruct sx; try destruct sy; try reflexivity.
  all: cbn [SFopp negb]; unfold SFadd; rewrite <- binary_normalize_opp;
    f_equal; f_equal; cbv beta iota delta [cond_Zopp]; lia.
Qed.

Lemma add_nz (x y : double) :
  nz (Double.add x y) = nz (Double.add (nz x) (nz y)).
Proof.
  double_cases x y; reflexivity.
Qed.

Lemma sub_opp (x y : double) :
  nz (Double.sub (SFopp x) (SFopp y)) = nz (SFopp (Double.sub x y)).
Proof.
  unfold Double.sub.
  destruct x as [sx|sx| |sx mx ex], y as [sy|sy| |sy my ey];
    try destruct sx; try destruct sy; try reflexivity.
  all: cbn [SFopp negb]; unfold SFsub; rewrite <- binary_normalize_opp;
    f_equal; f_equal; cbv beta iota delta [cond_Zopp]; lia.
Qed.

Lemma sub_nz (x y : double) :
  nz (Double.sub x y) = nz (Double.sub (nz x) (nz y)).
Proof.
  double_cases x y; reflexivity.
Qed.

Lemma lt_nz (x y : double) : Double.lt x y = Double.lt (nz x) (nz y).
Proof.
  double_cases x y; reflexivity.
Qed.

Lemma lt_opp_zero (x : double) :
  Double.lt (SFopp x) Double.zero = Double.lt Double.zero x.
Proof. destruct x as [[]|[]| |[] ? ?]; reflexivity. Qed.

Lemma lt_zero_opp (x : double) :
  Double.lt Double.zero (SFopp x) = Double.lt x Double.zero.
Proof. destruct x as [[]|[]| |[] ? ?]; reflexivity. Qed.

Lemma mul_opposite (x x' k : double) :
  nz x' = nz (SFopp x) → nz (Double.mul x' k) = nz (SFopp (Double.mul x k)).
Proof. intros H. rewrite mul_nz, H, <- mul_nz, mul_opp. reflexivity. Qed.

Lemma add_opposite (x x' y y' : double) :
  nz x' = nz (SFopp x) → nz y' = nz (SFopp y) →
  nz (Double.add x' y') = nz (SFopp (Double.add x y)).
Proof. intros Hx Hy. rewrite add_nz, Hx, Hy, <- add_nz. apply add_opp. Qed.

Lemma sub_opposite (x x' y y' : double) :
  nz x' = nz (SFopp x) → nz y' = nz (SFopp y) →
  nz (Double.sub x' y') = nz (SFopp (Double.sub x y)).
Proof. intros Hx Hy. rewrite sub_nz, Hx, Hy, <- sub_nz. apply sub_opp. Qed.

Lemma signed_value_swap (pi pj pk : point) :
  nz (Spec.signed_value pj pi pk) = nz (SFopp (Spec.signed_value pi pj pk)).
Proof.
  unfold Spec.signed_value. cbv zeta.
  apply sub_opposite; [|apply sub_swap].
  apply add_opposite; apply mul_opposite, sub_swap.
Qed.

Lemma negative_swap (pi pj pk : point) :
  Spec.negative pj pi pk = Spec.positive pi pj pk.
Proof.
  unfold Spec.negative, Spec.positive.
  rewrite lt_nz, signed_value_swap, <- lt_nz. apply lt_opp_zero.
Qed.

Lemma positive_swap (pi pj pk : point) :
  Spec.positive pj pi pk = Spec.negative pi pj pk.
Proof.
  unfold Spec.negative, Spec.positive.
  rewrite lt_nz, signed_value_swap, <- lt_nz. apply lt_zero_opp.
Qed.

Lemma hasNegative_swap (pts : list point) (pi pj : point) :
  Spec.hasNegative pts pj pi = Spec.hasPositive pts pi pj.
Proof.
  unfold Spec.hasNegative, Spec.hasPositive.
  induction pts as [|pk pts IH]; simpl; [reflexivity|].
  rewrite negative_swap, IH. reflexivity.
Qed.

Lemma hasPositive_swap (pts : list point) (pi pj : point) :
  Spec.hasPositive pts pj pi = Spec.hasNegative pts pi pj.
Proof.
  unfold Spec.hasNegative, Spec.hasPositive.
  induction pts as [|pk pts IH]; simpl; [reflexivity|].
  rewrite positive_swap, IH. reflexivity.
Qed.

(** The acceptance rule does not depend on which of the two points is the
    origin. *)
Lemma accepted_swap (pts : list point) (pi pj : point) :
  Spec.accepted pts pj pi = Spec.accepted pts pi pj.
Proof.
  unfold Spec.accepted.
  rewrite (hasNegative_swap pts pi pj), (hasPositive_swap pts pi pj).
  apply f_equal, andb_comm.
Qed.

(** * A second run on a non-empty hull *)

Lemma point_eq_refl (x : point) : no_nan x → point_eq x x = true.
Proof. intros Hx. apply (point_eq_pkey x x Hx Hx). reflexivity. Qed.

(** In a duplicate-free vector, equivalent elements are the same element. *)
Lemma distinct_equiv_eq (pts : list point) (x y : point) :
  distinct pts → Forall no_nan pts → x ∈ pts → y ∈ pts →
  point_lt x y = false → point_lt y x = false → x = y.
Proof.
  intros Hdist Hnan Hx Hy Hxy Hyx. rewrite Forall_forall in Hnan.
  pose proof (point_equiv_eq x y (Hnan x Hx) (Hnan y Hy) Hxy Hyx) as Heq.
  apply list_elem_of_lookup in Hx, Hy. destruct Hx as [i Hi], Hy as [j Hj].
  destruct (decide (i = j)) as [->|Hij]; [congruence|].
  rewrite (Hdist i j x y Hij Hi Hj) in Heq. discriminate.
Qed.

Lemma sorted_distinct (l : list point) :
  StronglySorted (λ p q, point_lt p q = true) l → Forall no_nan l → distinct l.
Proof.
  intros Hsorted Hnan i j p q Hij Hi Hj. rewrite Forall_forall in Hnan.
  assert (Hp : no_nan p) by (eapply Hnan, list_elem_of_lookup_2, Hi).
  assert (Hq : no_nan q) by (eapply Hnan, list_elem_of_lookup_2, Hj).
  destruct (Nat.lt_total i j) as [Hlt|[Heq|Hlt]]; [|contradiction|].
  - apply point_lt_not_eq; [assumption..|].
    apply (sorted_lookup _ _ _ _ _ _ Hsorted Hlt Hi Hj).
  - destruct (point_eq p q) eqn:Heq; [|reflexivity].
    apply point_eq_sym in Heq; [|assumption..].
    rewrite (point_lt_not_eq q p Hq Hp
               (sorted_lookup _ _ _ _ _ _ Hsorted Hlt Hj Hi)) in Heq.
    discriminate.
Qed.

Lemma two_elements {A} (l : list A) (x y : A) :
  x ∈ l → y ∈ l → x ≠ y → 2 <= vsize l.
Proof.
  intros Hx Hy Hxy. destruct l as [|a [|b l]].
  - inversion Hx.
  - apply list_elem_of_singleton in Hx, Hy. congruence.
  - rewrite !vsize_cons. pose proof (vsize_nonneg l). lia.
Qed.

Lemma computeHull_vertices (pts : list point) :
  2 <= vsize pts → fits_size_t pts → computeHull pts = Ok (Spec.vertices pts).
Proof.
  intros Hsize Hfit. pose proof (computeHull_run pts) as Hrun.
  assert (Hedges : brute_force_convex_hull pts [] = Ok (Spec.edges pts))
    by (rewrite brute_force_convex_hull_edges by (assumption || lia); reflexivity).
  destruct pts as [|x [|y v]];
    [rewrite ?vsize_cons in Hsize; unfold vsize in Hsize; simpl in Hsize; lia..|].
  destruct Hrun as (sgmts & Hs & Hhull & _).
  rewrite Hedges in Hs. injection Hs as <-. exact Hhull.
Qed.

Lemma edges_no_nan (pts : list point) :
  Forall no_nan pts → Forall (λ s, no_nan s.1 ∧ no_nan s.2) (Spec.edges pts).
Proof.
  intros Hnan. rewrite Forall_forall in Hnan. apply Forall_forall.
  intros [pi pj] Hs. apply elem_of_edges in Hs.
  destruct Hs as [(i & j & _ & Hi & Hj) _]. simpl.
  split; eapply Hnan, list_elem_of_lookup_2; eassumption.
Qed.

Lemma vertices_sorted (pts : list point) :
  Forall no_nan pts →
  StronglySorted (λ p q, point_lt p q = true) (Spec.vertices pts)
  ∧ Forall no_nan (Spec.vertices pts).
Proof. intros Hnan. apply endpoints_set_sorted, edges_no_nan, Hnan. Qed.

Lemma vertices_in (pts : list point) (q : point) :
  q ∈ Spec.vertices pts → q ∈ pts.
Proof.
  intros Hq. apply endpoints_set_elem in Hq.
  destruct Hq as ([pi pj] & Hs & Hq). apply elem_of_edges in Hs.
  destruct Hs as [(i & j & _ & Hi & Hj) _].
  destruct Hq as [->| ->]; eapply list_elem_of_lookup_2; eassumption.
Qed.

(** In a duplicate-free vector, the two points of an accepted pair are
    themselves in the set of vertices. *)
Lemma edges_in_vertices (pts : list point) (s : line_segment) :
  Forall no_nan pts → distinct pts → s ∈ Spec.edges pts →
  s.1 ∈ Spec.vertices pts ∧ s.2 ∈ Spec.vertices pts.
Proof.
  intros Hnan Hdist Hs.
  destruct (endpoints_set_has _ s Hs) as [(q1 & Hq1 & H1 & H1') (q2 & Hq2 & H2 & H2')].
  destruct s as [pi pj]. apply elem_of_edges in Hs.
  destruct Hs as [(i & j & _ & Hi & Hj) _]. simpl in *.
  assert (Hpi : pi ∈ pts) by (eapply list_elem_of_lookup_2; eassumption).
  assert (Hpj : pj ∈ pts) by (eapply list_elem_of_lookup_2; eassumption).
  rewrite <- (distinct_equiv_eq pts q1 pi Hdist Hnan (vertices_in _ _ Hq1) Hpi H1 H1').
  rewrite <- (distinct_equiv_eq pts q2 pj Hdist Hnan (vertices_in _ _ Hq2) Hpj H2 H2').
  auto.
Qed.

Lemma edges_ends_differ (pts : list point) (s : line_segment) :
  Forall no_nan pts → distinct pts → s ∈ Spec.edges pts → s.1 ≠ s.2.
Proof.
  intros Hnan Hdist Hs Heq. destruct s as [pi pj]. simpl in Heq. subst pj.
  apply elem_of_edges in Hs. destruct Hs as [(i & j & Hij & Hi & Hj) _].
  assert (Hne : i ≠ j) by lia.
  pose proof (Hdist i j pi pi Hne Hi Hj) as H.
  rewrite Forall_forall in Hnan.
  rewrite point_eq_refl in H by (eapply Hnan, list_elem_of_lookup_2, Hi).
  discriminate.
Qed.

(** Every vertex is still the end of an accepted pair when the input is
    the set of vertices itself. *)
Lemma vertices_of_vertices (pts : list point) :
  Forall no_nan pts → distinct pts →
  Spec.vertices (Spec.vertices pts) = Spec.vertices pts.
Proof.
  intros Hnan Hdist.
  destruct (vertices_sorted pts Hnan) as [Hsorted Hvn].
  destruct (vertices_sorted (Spec.vertices pts) Hvn) as [Hsorted' _].
  pose proof (sorted_distinct _ Hsorted Hvn) as Hvd.
  apply (StronglySorted_unique_strong (λ p q, point_lt p q = true));
    [|assumption..|].
  { intros p q _ _ Hpq Hqp. rewrite (point_lt_asym _ _ Hpq) in Hqp. discriminate. }
  apply NoDup_Permutation; [apply sorted_NoDup; assumption..|].
  intros q. split; [apply vertices_in|].
  intros Hq. pose proof Hq as Hq0. apply endpoints_set_elem in Hq0.
  destruct Hq0 as ([pi pj] & Hs & Hends).
  destruct (edges_in_vertices pts _ Hnan Hdist Hs) as [Hpi Hpj].
  pose proof (edges_ends_differ pts _ Hnan Hdist Hs) as Hdiff.
  apply elem_of_edges in Hs. destruct Hs as [_ Hacc]. simpl in *.
  apply (accepted_subset pts (Spec.vertices pts)) in Hacc; [|apply vertices_in].
  apply list_elem_of_lookup in Hpi, Hpj.
  destruct Hpi as [i Hi], Hpj as [j Hj].
  destruct (Nat.lt_total i j) as [Hlt|[Heq|Hlt]]; [|subst j; congruence|].
  - assert (Hs' : (pi, pj) ∈ Spec.edges (Spec.vertices pts)).
    { apply elem_of_edges. split; [|exact Hacc]. exists i, j. auto. }
    destruct (edges_in_vertices _ _ Hvn Hvd Hs') as [H1 H2]. simpl in *.
    destruct Hends as [->| ->]; assumption.
  - assert (Hs' : (pj, pi) ∈ Spec.edges (Spec.vertices pts)).
    { apply elem_of_edges. split; [|rewrite accepted_swap; exact Hacc].
      exists j, i. auto. }
    destruct (edges_in_vertices _ _ Hvn Hvd Hs') as [H1 H2]. simpl in *.
    destruct Hends as [->| ->]; assumption.
Qed.

(** Where the defect of C7 lies: it is only through an empty first result
    that a second run differs.  For every vector of points without NaN
    coordinates and without duplicates, if [computeHull] returns a
    non-empty sequence then [computeHull] on that sequence returns the
    same sequence. *)
Theorem second_run_on_nonempty_hull (pts hull : list point) :
  Forall no_nan pts → distinct pts → fits_size_t pts →
  computeHull pts = Ok hull → hull ≠ [] →
  computeHull hull = Ok hull.
Proof.
  intros Hnan Hdist Hfit Hhull Hne.
  destruct (Z_lt_le_dec (vsize pts) 2) as [Hsmall|Hsize].
  - pose proof (computeHull_run pts) as Hrun.
    destruct pts as [|x [|y v]].
    + destruct Hrun as [Hrun _]. rewrite Hrun in Hhull. discriminate.
    + destruct Hrun as [Hrun _]. rewrite Hrun in Hhull. injection Hhull as <-.
      apply (computeHull_run [x]).
    + rewrite !vsize_cons in Hsmall. pose proof (vsize_nonneg v). lia.
  - rewrite (computeHull_vertices pts Hsize Hfit) in Hhull. injection Hhull as <-.
    destruct (vertices_sorted pts Hnan) as [Hsorted Hvn].
    assert (Hlen : vsize (Spec.vertices pts) <= vsize pts).
    { unfold vsize. apply inj_le, submseteq_length, NoDup_submseteq.
      - apply sorted_NoDup, Hsorted.
      - apply vertices_in. }
    assert (Htwo : 2 <= vsize (Spec.vertices pts)).
    { destruct (Spec.vertices pts) as [|q l] eqn:Hv; [contradiction|].
      assert (Hq : q ∈ Spec.vertices pts) by (rewrite Hv; left).
      pose proof Hq as Hq0. apply endpoints_set_elem in Hq0.
      destruct Hq0 as (s & Hs & _).
      destruct (edges_in_vertices pts s Hnan Hdist Hs) as [H1 H2].
      rewrite <- Hv.
      apply (two_elements _ s.1 s.2 H1 H2 (edges_ends_differ pts s Hnan Hdist Hs)). }
    rewrite computeHull_vertices; [|exact Htwo|unfold fits_size_t in *; lia].
    rewrite (vertices_of_vertices pts Hnan Hdist). reflexivity.
Qed.

Lemma distinctb_distinct (pts : list point) :
  distinctb pts = true → distinct pts.
Proof.
  induction pts as [|x pts IH]; intros Hb i j p q Hij Hi Hj; [discriminate|].
  simpl in Hb. apply andb_true_iff in Hb. destruct Hb as [Hx Hb].
  rewrite forallb_forall in Hx.
  destruct i as [|i], j as [|j]; simpl in Hi, Hj.
  - contradiction.
  - injection Hi as ->. apply list_elem_of_lookup_2, list_elem_of_In in Hj.
    apply Hx, andb_true_iff in Hj. destruct Hj as [Hj _].
    apply negb_true_iff, Hj.
  - injection Hj as ->. apply list_elem_of_lookup_2, list_elem_of_In in Hi.
    apply Hx, andb_true_iff in Hi. destruct Hi as [_ Hi].
    apply negb_true_iff, Hi.
  - apply (IH Hb i j); [lia|assumption..].
Qed.

(** A second run on the hull of the square with its centre returns the
    four corners again. *)
Lemma second_run_on_nonempty_hull_witness :
  computeHull [pt 0 0; pt 0 2; pt 2 0; pt 2 2]
  = Ok [pt 0 0; pt 0 2; pt 2 0; pt 2 2].
Proof.
  apply (second_run_on_nonempty_hull square_with_centre).
  - repeat constructor.
  - apply distinctb_distinct. vm_compute. reflexivity.
  - vm_compute. reflexivity.
  - vm_compute. reflexivity.
  - discriminate.
Defined.

(** * The claims *)

(** C1 at a failing input.  For the two distinct points (3, 5) and
    (5, 9007199254740991), valid doubles, the signed values of the claim,
    computed without rounding, are 0 at both points: no point is strictly
    negative, none strictly positive, and by the rule of the claim the
    pair is a hull edge.  The code computes 4 at the first point and -4 at
    the second (line 205, in double arithmetic), its scan sets both [LT]
    and [GT], and the enumerator rejects the pair: it returns no
    segment. *)
Theorem C1_enumerator_rejects_the_only_pair_of_two_points :
  steep_pair !! 0%nat = Some (pt 3 5)
  ∧ steep_pair !! 1%nat = Some (pt 5 (2 ^ 53 - 1))
  ∧ Forall (λ p, Double.valid p.1 = true ∧ Double.valid p.2 = true) steep_pair
  ∧ QArith_base.Qeq (exact (Double.of_Z (2 ^ 53 - 1)))
      (QArith_base.inject_Z 9007199254740991)
  ∧ QArith_base.Qeq
      (exact_signed_value (pt 3 5) (pt 5 (2 ^ 53 - 1)) (pt 3 5))
      (QArith_base.inject_Z 0)
  ∧ QArith_base.Qeq
      (exact_signed_value (pt 3 5) (pt 5 (2 ^ 53 - 1)) (pt 5 (2 ^ 53 - 1)))
      (QArith_base.inject_Z 0)
  ∧ Spec.signed_value (pt 3 5) (pt 5 (2 ^ 53 - 1)) (pt 3 5) = Double.of_Z 4
  ∧ Spec.signed_value (pt 3 5) (pt 5 (2 ^ 53 - 1)) (pt 5 (2 ^ 53 - 1))
    = Double.of_Z (-4)
  ∧ scan steep_pair (Double.sub (Double.of_Z (2 ^ 53 - 1)) (Double.of_Z 5))
      (Double.sub (Double.of_Z 3) (Double.of_Z 5))
      (Double.sub (Double.mul (Double.of_Z (2 ^ 53 - 1)) (Double.of_Z 3))
         (Double.mul (Double.of_Z 5) (Double.of_Z 5)))
    = Ok (true, true)
  ∧ brute_force_convex_hull steep_pair [] = Ok [].
Proof.
  repeat split; try (vm_compute; reflexivity).
  repeat constructor.
Qed.

(** C2.  For every vector of at least two points, none with a NaN
    coordinate, [computeHull] returns the distinct endpoints of the
    segments the enumerator accepted: every point returned is the origin
    or the destination of an accepted segment, every origin and every
    destination compares equal ([operator==]) to a point returned, and no
    two points returned compare equal.  For a single point the result is
    that point. *)
Theorem C2_hull_is_the_set_of_endpoints (pts : list point) :
  Forall no_nan pts →
  (2 <= vsize pts →
   ∃ sgmts hull,
     brute_force_convex_hull pts [] = Ok sgmts ∧ computeHull pts = Ok hull
     ∧ (∀ q, q ∈ hull →
          ∃ s, s ∈ sgmts ∧ (q = get_first s ∨ q = get_second s))
     ∧ (∀ s, s ∈ sgmts →
          (∃ q, q ∈ hull ∧ point_eq q (get_first s) = true)
          ∧ (∃ q, q ∈ hull ∧ point_eq q (get_second s) = true))
     ∧ (∀ (i j : nat) q q',
          i ≠ j → hull !! i = Some q → hull !! j = Some q' →
          point_eq q q' = false))
  ∧ (∀ p, pts = [p] → computeHull pts = Ok [p]).
Proof.
  intros Hnan. split.
  - intros Hsize. pose proof (computeHull_run pts) as Hrun.
    destruct pts as [|x [|y v]];
      [rewrite ?vsize_cons in Hsize; unfold vsize in Hsize; simpl in Hsize; lia..|].
    destruct Hrun as (sgmts & Hs & Hhull & _).
    exists sgmts, (endpoints_set sgmts).
    pose proof (segments_no_nan _ _ Hnan Hs) as Hsn.
    destruct (endpoints_set_sorted sgmts Hsn) as [Hsorted Hhn].
    rewrite Forall_forall in Hsn. rewrite Forall_forall in Hhn.
    split; [exact Hs|]. split; [exact Hhull|].
    split; [apply endpoints_set_elem|]. split.
    + intros s Hin. destruct (Hsn s Hin) as [Hn1 Hn2].
      destruct (endpoints_set_has sgmts s Hin)
        as [(q1 & Hq1 & H1 & H1') (q2 & Hq2 & H2 & H2')].
      split; [exists q1|exists q2]; (split; [assumption|]);
        apply point_equiv_eq; auto.
    + intros i j q q' Hij Hi Hj.
      assert (Hq : no_nan q) by (eapply Hhn, list_elem_of_lookup_2, Hi).
      assert (Hq' : no_nan q') by (eapply Hhn, list_elem_of_lookup_2, Hj).
      destruct (Nat.lt_total i j) as [Hlt|[Heq|Hlt]]; [|contradiction|].
      * apply point_lt_not_eq; [assumption..|].
        apply (sorted_lookup _ _ _ _ _ _ Hsorted Hlt Hi Hj).
      * destruct (point_eq q q') eqn:Heq; [|reflexivity].
        apply point_eq_sym in Heq; [|assumption..].
        rewrite (point_lt_not_eq q' q Hq' Hq
                   (sorted_lookup _ _ _ _ _ _ Hsorted Hlt Hj Hi)) in Heq.
        discriminate.
  - intros p ->. apply (computeHull_run [p]).
Qed.

(** The hull of the square with its centre is made of endpoints. *)
Lemma C2_hull_is_the_set_of_endpoints_witness :
  Forall no_nan square_with_centre ∧ 2 <= vsize square_with_centre
  ∧ ∃ sgmts hull,
      brute_force_convex_hull square_with_centre [] = Ok sgmts
      ∧ computeHull square_with_centre = Ok hull
      ∧ ∀ q, q ∈ hull → ∃ s, s ∈ sgmts ∧ (q = get_first s ∨ q = get_second s).
Proof.
  assert (Hnan : Forall no_nan square_with_centre)
    by (repeat constructor).
  assert (H2 : 2 <= vsize square_with_centre) by (vm_compute; discriminate).
  split; [exact Hnan|]. split; [exact H2|].
  destruct (C2_hull_is_the_set_of_endpoints square_with_centre Hnan) as [H _].
  destruct (H H2) as (sgmts & hull & Hs & Hh & Hsub & _).
  exists sgmts, hull. auto.
Defined.

(** C3.  For every non-empty vector of points, none with a NaN coordinate,
    the sequence [computeHull] returns is strictly ascending in the order
    of points (first coordinate, then second) and has no point twice. *)
Theorem C3_hull_is_strictly_ascending (pts : list point) :
  pts ≠ [] → Forall no_nan pts →
  ∃ hull, computeHull pts = Ok hull
    ∧ (∀ (i j : nat) p q,
         (i < j)%nat → hull !! i = Some p → hull !! j = Some q →
         point_lt p q = true)
    ∧ NoDup hull.
Proof.
  intros Hne Hnan. pose proof (computeHull_run pts) as Hrun.
  destruct pts as [|x [|y v]]; [contradiction| |].
  - destruct Hrun as [Hrun _]. exists [x]. split; [exact Hrun|]. split.
    + intros i j p q Hij _ Hj. destruct j as [|j]; [lia|discriminate].
    + apply NoDup_singleton.
  - destruct Hrun as (sgmts & Hs & Hhull & _).
    exists (endpoints_set sgmts). split; [exact Hhull|].
    destruct (endpoints_set_sorted sgmts (segments_no_nan _ _ Hnan Hs))
      as [Hsorted _].
    split; [|apply sorted_NoDup, Hsorted].
    intros i j p q Hij Hi Hj.
    apply (sorted_lookup _ _ _ _ _ _ Hsorted Hij Hi Hj).
Qed.

(** The hull of the square with its centre has no point twice. *)
Lemma C3_hull_is_strictly_ascending_witness :
  square_with_centre ≠ [] ∧ Forall no_nan square_with_centre
  ∧ ∃ hull, computeHull square_with_centre = Ok hull ∧ NoDup hull.
Proof.
  assert (Hne : square_with_centre ≠ []) by discriminate.
  assert (Hnan : Forall no_nan square_with_centre) by (repeat constructor).
  split; [exact Hne|]. split; [exact Hnan|].
  destruct (C3_hull_is_strictly_ascending square_with_centre Hne Hnan)
    as (hull & Hh & _ & Hnd).
  exists hull. auto.
Defined.

(** C4 at a failing input.  For the four distinct points (0,0),
    (134217728,134217729), (1,1) and (134217727,134217728), valid doubles,
    the enumerator returns the segment from (0,0) to
    (134217728,134217729), although the points do not lie in one closed
    half-plane of its line: without rounding the signed value of (1,1) is
    +1 and that of (134217727,134217728) is -1.  The code finds 0 for the
    latter, because the product 134217729 * 134217727 = 2^54 - 1 is
    rounded to 2^54 (line 205), and so sets [GT] only. *)
Theorem C4_accepted_edge_with_points_on_both_sides :
  Forall (λ p, Double.valid p.1 = true ∧ Double.valid p.2 = true) skew_quad
  ∧ distinctb skew_quad = true
  ∧ brute_force_convex_hull skew_quad []
    = Ok [(pt 0 0, pt (2 ^ 27) (2 ^ 27 + 1));
          (pt 0 0, pt 1 1);
          (pt 0 0, pt (2 ^ 27 - 1) (2 ^ 27));
          (pt (2 ^ 27) (2 ^ 27 + 1), pt 1 1);
          (pt (2 ^ 27) (2 ^ 27 + 1), pt (2 ^ 27 - 1) (2 ^ 27))]
  ∧ QArith_base.Qeq
      (exact_signed_value (pt 0 0) (pt (2 ^ 27) (2 ^ 27 + 1)) (pt 1 1))
      (QArith_base.inject_Z 1)
  ∧ QArith_base.Qeq
      (exact_signed_value (pt 0 0) (pt (2 ^ 27) (2 ^ 27 + 1))
         (pt (2 ^ 27 - 1) (2 ^ 27)))
      (QArith_base.inject_Z (-1))
  ∧ QArith_base.Qlt (QArith_base.inject_Z 0)
      (exact_signed_value (pt 0 0) (pt (2 ^ 27) (2 ^ 27 + 1)) (pt 1 1))
  ∧ QArith_base.Qlt
      (exact_signed_value (pt 0 0) (pt (2 ^ 27) (2 ^ 27 + 1))
         (pt (2 ^ 27 - 1) (2 ^ 27)))
      (QArith_base.inject_Z 0)
  ∧ Spec.signed_value (pt 0 0) (pt (2 ^ 27) (2 ^ 27 + 1)) (pt 1 1)
    = Double.of_Z 1
  ∧ Double.eq
      (Spec.signed_value (pt 0 0) (pt (2 ^ 27) (2 ^ 27 + 1))
         (pt (2 ^ 27 - 1) (2 ^ 27)))
      Double.zero = true
  ∧ Double.mul (Double.of_Z (2 ^ 27 + 1)) (Double.of_Z (2 ^ 27 - 1))
    = Double.of_Z (2 ^ 54).
Proof.
  split; [repeat constructor|].
  repeat split; vm_compute; reflexivity.
Qed.

(** Over the values the code computes, with their rounding, no segment
    returned has a point below zero and a point above zero. *)
Lemma returned_segments_set_one_flag_at_most (pts : list point)
    (sgmts : list line_segment) (s : line_segment) :
  brute_force_convex_hull pts [] = Ok sgmts → s ∈ sgmts →
  ¬ ((∃ p, p ∈ pts
        ∧ Double.lt (Spec.signed_value s.1 s.2 p) Double.zero = true)
     ∧ (∃ q, q ∈ pts
        ∧ Double.lt Double.zero (Spec.signed_value s.1 s.2 q) = true))
  ∧ ((∀ p, p ∈ pts →
        Double.lt (Spec.signed_value s.1 s.2 p) Double.zero = false)
     ∨ (∀ q, q ∈ pts →
        Double.lt Double.zero (Spec.signed_value s.1 s.2 q) = false)).
Proof.
  intros Hs Hin.
  destruct (brute_force_convex_hull_sound pts [] sgmts Hs s Hin)
    as [H|(_ & _ & Hacc)]; [inversion H|].
  split; [apply accepted_iff, Hacc|].
  unfold Spec.accepted in Hacc. apply negb_true_iff, andb_false_iff in Hacc.
  destruct Hacc as [Hneg|Hpos]; [left|right]; intros p Hp.
  - destruct (Double.lt (Spec.signed_value s.1 s.2 p) Double.zero) eqn:E;
      [|reflexivity].
    assert (Spec.hasNegative pts s.1 s.2 = true)
      by (apply hasNegative_exists; eauto).
    congruence.
  - destruct (Double.lt Double.zero (Spec.signed_value s.1 s.2 p)) eqn:E;
      [|reflexivity].
    assert (Spec.hasPositive pts s.1 s.2 = true)
      by (apply hasPositive_exists; eauto).
    congruence.
Qed.

(** The first segment returned for the square with its centre has no
    point of the square strictly on its negative side. *)
Lemma returned_segments_set_one_flag_at_most_witness :
  brute_force_convex_hull square_with_centre []
  = Ok [(pt 0 0, pt 0 2); (pt 0 0, pt 2 0); (pt 0 2, pt 2 2); (pt 2 0, pt 2 2)]
  ∧ ((∀ p, p ∈ square_with_centre →
        Double.lt (Spec.signed_value (pt 0 0) (pt 0 2) p) Double.zero = false)
     ∨ (∀ q, q ∈ square_with_centre →
        Double.lt Double.zero (Spec.signed_value (pt 0 0) (pt 0 2) q) = false)).
Proof.
  assert (Hs : brute_force_convex_hull square_with_centre []
    = Ok [(pt 0 0, pt 0 2); (pt 0 0, pt 2 0); (pt 0 2, pt 2 2); (pt 2 0, pt 2 2)])
    by (vm_compute; reflexivity).
  split; [exact Hs|].
  apply (returned_segments_set_one_flag_at_most _ _ (pt 0 0, pt 0 2) Hs). left.
Defined.

(** C5.  On references to two vectors, [find_hull] throws if and only if
    the vector of points is empty; when it throws, the store and the log
    of enumerator calls are as they were before the call (nothing was
    computed, nothing was written to the output vector); and on a non-empty
    vector the call returns normally: there is no other failure.  With
    [main]'s vectors, [computeHull] throws exactly on the empty vector,
    where the outcome is the exception and not an empty result, and
    returns a sequence on every other vector. *)
Theorem C5_throws_exactly_on_empty_input
    (pts ret_hull_points : ref) (σ : state) (v w : list point) :
  vectors σ !! pts = Some v →
  vectors σ !! ret_hull_points = Some w →
  ((∃ what, (find_hull pts ret_hull_points σ).1 = Throw what) ↔ v = [])
  ∧ (v = [] → find_hull pts ret_hull_points σ = (Throw no_points, σ))
  ∧ (v ≠ [] → (find_hull pts ret_hull_points σ).1 = Ok ())
  ∧ computeHull [] = Throw no_points
  ∧ computeHull_calls [] = []
  ∧ (∀ points,
       ((∃ what, computeHull points = Throw what) ↔ points = [])
       ∧ (points ≠ [] → ∃ hull, computeHull points = Ok hull)).
Proof.
  intros Hp Hr. pose proof (find_hull_run _ _ _ _ _ Hp Hr) as Hrun.
  assert (Hok : v ≠ [] → (find_hull pts ret_hull_points σ).1 = Ok ()).
  { intros Hne. destruct v as [|x [|y v']]; [contradiction| |].
    - rewrite Hrun. reflexivity.
    - destruct Hrun as (sgmts & _ & ->). reflexivity. }
  assert (Hthrow : v = [] → find_hull pts ret_hull_points σ = (Throw no_points, σ)).
  { intros ->. exact Hrun. }
  split; [|split; [exact Hthrow|split; [exact Hok|]]].
  - split.
    + intros [what Hwhat]. destruct v as [|x v']; [reflexivity|].
      rewrite Hok in Hwhat by discriminate. discriminate.
    + intros Hv. exists no_points. rewrite (Hthrow Hv). reflexivity.
  - split; [apply (computeHull_run [])|]. split; [apply (computeHull_run [])|].
    intros points. pose proof (computeHull_run points) as Hmain.
    destruct points as [|x [|y points]].
    + destruct Hmain as [Hmain _]. split; [|contradiction].
      split; [reflexivity|]. intros _. exists no_points. exact Hmain.
    + destruct Hmain as [Hmain _]. rewrite Hmain.
      split; [|intros _; eauto].
      split; [intros [what Hwhat]|]; discriminate.
    + destruct Hmain as (sgmts & _ & Hmain & _). rewrite Hmain.
      split; [|intros _; eauto].
      split; [intros [what Hwhat]|]; discriminate.
Qed.

(** [main]'s call on the empty vector throws and leaves the store as it
    was. *)
Lemma C5_throws_exactly_on_empty_input_witness :
  vectors (main_state []) !! pts_ref = Some []
  ∧ vectors (main_state []) !! hull_pts_ref = Some []
  ∧ find_hull pts_ref hull_pts_ref (main_state [])
    = (Throw no_points, main_state []).
Proof.
  assert (Hp : vectors (main_state []) !! pts_ref = Some []) by reflexivity.
  assert (Hr : vectors (main_state []) !! hull_pts_ref = Some []) by reflexivity.
  split; [exact Hp|]. split; [exact Hr|].
  destruct (C5_throws_exactly_on_empty_input _ _ _ _ _ Hp Hr) as (_ & H & _).
  apply H. reflexivity.
Defined.

(** C6.  For a vector of exactly one point, [computeHull] returns exactly
    that point and [brute_force_convex_hull] is not called; the input
    {(2,3)} gives [(2,3)]. *)
Theorem C6_single_point (p : point) :
  computeHull [p] = Ok [p]
  ∧ computeHull_calls [p] = []
  ∧ computeHull [pt 2 3] = Ok [pt 2 3].
Proof.
  split; [apply (computeHull_run [p])|].
  split; [apply (computeHull_run [p])|apply (computeHull_run [pt 2 3])].
Qed.

(** C8.  For the input {(0,0),(0,2),(2,0),(2,2),(1,1)}, [computeHull]
    returns the four corners in ascending order,
    [(0,0),(0,2),(2,0),(2,2)], and (1,1) is not in the result. *)
Theorem C8_square_with_interior_point :
  computeHull square_with_centre = Ok [pt 0 0; pt 0 2; pt 2 0; pt 2 2]
  ∧ pt 1 1 ∉ [pt 0 0; pt 0 2; pt 2 0; pt 2 2].
Proof.
  split; [vm_compute; reflexivity|].
  intros H. repeat (apply elem_of_cons in H; destruct H as [H|H];
                    [vm_compute in H; discriminate|]).
  inversion H.
Qed.

(** C9.  When [brute_force_convex_hull] is called on a vector of at least
    two points, the bound [pts.size() - 1] of the outer loop does not wrap
    around, every index [i], [j] and [k] the three loops reach is inside
    the vector, and the call returns normally.  Every call of the
    enumerator that [find_hull] makes is on a vector of at least two
    points, so the wrap-around of the bound on an empty vector does not
    happen through [find_hull]. *)
Theorem C9_indices_in_bounds (pts : list point) (ret : list line_segment) :
  2 <= vsize pts → fits_size_t pts →
  wrap64 (vsize pts - 1) = vsize pts - 1
  ∧ (∀ i j k,
       i ∈ seqZ 0 (wrap64 (vsize pts - 1) - 0) →
       j ∈ seqZ (wrap64 (i + 1)) (vsize pts - wrap64 (i + 1)) →
       k ∈ seqZ 0 (vsize pts - 0) →
       (∃ pi, at_ pts i = Ok pi) ∧ (∃ pj, at_ pts j = Ok pj)
       ∧ (∃ pk, at_ pts k = Ok pk))
  ∧ (∃ sgmts, brute_force_convex_hull pts ret = Ok sgmts)
  ∧ (∀ (p r : ref) (σ : state) (v : list point),
       v ∈ calls (find_hull p r σ).2 → v ∈ calls σ ∨ 2 <= vsize v).
Proof.
  intros Hsize Hfit. unfold fits_size_t in Hfit.
  assert (Hw : wrap64 (vsize pts - 1) = vsize pts - 1)
    by (apply wrap64_small; lia).
  split; [exact Hw|]. split; [|split].
  - intros i j k Hi Hj Hk. rewrite Hw in Hi.
    apply elem_of_seqZ in Hi. apply elem_of_seqZ in Hk.
    rewrite wrap64_small in Hj by lia. apply elem_of_seqZ in Hj.
    destruct (at_in_range pts i) as (pi & Hpi & _); [lia|].
    destruct (at_in_range pts j) as (pj & Hpj & _); [lia|].
    destruct (at_in_range pts k) as (pk & Hpk & _); [lia|].
    split; [exists pi; exact Hpi|]. split; [exists pj; exact Hpj|].
    exists pk. exact Hpk.
  - apply brute_force_convex_hull_total.
  - intros p r σ v Hv.
    destruct (find_hull_calls p r σ) as [H|(v' & _ & Hv' & H)];
      rewrite H in Hv; [auto|].
    apply elem_of_app in Hv. destruct Hv as [Hv|Hv]; [auto|].
    apply list_elem_of_singleton in Hv. subst v'. auto.
Qed.

(** The bound of the outer loop for the five points of the square with its
    centre is 4. *)
Lemma C9_indices_in_bounds_witness :
  2 <= vsize square_with_centre ∧ fits_size_t square_with_centre
  ∧ wrap64 (vsize square_with_centre - 1) = 4
  ∧ ∃ sgmts, brute_force_convex_hull square_with_centre [] = Ok sgmts.
Proof.
  assert (H2 : 2 <= vsize square_with_centre) by (vm_compute; discriminate).
  assert (Hfit : fits_size_t square_with_centre) by (vm_compute; reflexivity).
  split; [exact H2|]. split; [exact Hfit|].
  destruct (C9_indices_in_bounds square_with_centre [] H2 Hfit)
    as (Hw & _ & Hs & _).
  split; [exact Hw|exact Hs].
Defined.

(** C10 (amended).  When the output vector is not the vector of points
    itself, a call of [find_hull] on a non-empty vector of points returns
    normally, leaves the vector of points and every other vector but the
    output vector as they were, and leaves in the output vector the
    elements it held before the call, unchanged and in place, followed by
    the hull points (those [computeHull] returns for the points). *)
Theorem C10_find_hull_appends_to_its_output
    (pts ret_hull_points : ref) (σ : state) (v w : list point) :
  pts ≠ ret_hull_points →
  vectors σ !! pts = Some v →
  vectors σ !! ret_hull_points = Some w →
  v ≠ [] →
  (find_hull pts ret_hull_points σ).1 = Ok ()
  ∧ vectors (find_hull pts ret_hull_points σ).2 !! pts = Some v
  ∧ (∃ hull, computeHull v = Ok hull
       ∧ vectors (find_hull pts ret_hull_points σ).2 !! ret_hull_points
         = Some (w ++ hull))
  ∧ (∀ r, r ≠ ret_hull_points →
       vectors (find_hull pts ret_hull_points σ).2 !! r = vectors σ !! r).
Proof.
  intros Hdiff Hp Hr Hne.
  pose proof (find_hull_run _ _ _ _ _ Hp Hr) as Hrun.
  pose proof (computeHull_run v) as Hmain.
  destruct v as [|x [|y v']]; [contradiction| |].
  - rewrite Hrun. cbn [fst snd vectors]. split; [reflexivity|].
    split; [rewrite lookup_insert_ne by auto; exact Hp|]. split.
    + exists [x]. split; [apply Hmain|apply lookup_insert_eq].
    + intros r Hr'. apply lookup_insert_ne. auto.
  - destruct Hrun as (sgmts & Hs & ->).
    destruct Hmain as (sgmts' & Hs' & Hhull & _).
    rewrite Hs in Hs'. injection Hs' as <-.
    cbn [fst snd vectors]. split; [reflexivity|].
    split; [rewrite lookup_insert_ne by auto; exact Hp|]. split.
    + exists (endpoints_set sgmts). split; [exact Hhull|apply lookup_insert_eq].
    + intros r Hr'. apply lookup_insert_ne. auto.
Qed.

(** [main]'s call on the vector [(2,3)] leaves that vector as it was. *)
Lemma C10_find_hull_appends_to_its_output_witness :
  pts_ref ≠ hull_pts_ref
  ∧ vectors (main_state [pt 2 3]) !! pts_ref = Some [pt 2 3]
  ∧ vectors (main_state [pt 2 3]) !! hull_pts_ref = Some []
  ∧ [pt 2 3] ≠ []
  ∧ vectors (find_hull pts_ref hull_pts_ref (main_state [pt 2 3])).2 !! pts_ref
    = Some [pt 2 3].
Proof.
  assert (Hd : pts_ref ≠ hull_pts_ref) by discriminate.
  assert (Hp : vectors (main_state [pt 2 3]) !! pts_ref = Some [pt 2 3])
    by reflexivity.
  assert (Hr : vectors (main_state [pt 2 3]) !! hull_pts_ref = Some [])
    by reflexivity.
  assert (Hne : [pt 2 3] ≠ []) by discriminate.
  split; [exact Hd|]. split; [exact Hp|]. split; [exact Hr|]. split; [exact Hne|].
  destruct (C10_find_hull_appends_to_its_output _ _ _ _ _ Hd Hp Hr Hne)
    as (_ & H & _).
  exact H.
Defined.

(** C10, as stated, fails when the same vector is passed for both
    parameters: called on the vector [(2,3)] as points and as output,
    [find_hull] returns normally and the vector, its input, is then
    [(2,3),(2,3)]. *)
Lemma C10_input_modified_when_shared :
  vectors shared_state !! shared_ref = Some [pt 2 3]
  ∧ (find_hull shared_ref shared_ref shared_state).1 = Ok ()
  ∧ vectors (find_hull shared_ref shared_ref shared_state).2 !! shared_ref
    = Some [pt 2 3; pt 2 3]
  ∧ vectors (find_hull shared_ref shared_ref shared_state).2 !! shared_ref
    ≠ vectors shared_state !! shared_ref.
Proof.
  assert (Hp : vectors shared_state !! shared_ref = Some [pt 2 3]) by reflexivity.
  pose proof (find_hull_run _ _ _ _ _ Hp Hp) as Hrun. cbv beta iota in Hrun.
  rewrite Hrun. cbn [fst snd vectors].
  rewrite lookup_insert_eq, Hp.
  split; [reflexivity|]. split; [reflexivity|]. split; [reflexivity|].
  simpl. discriminate.
Qed.

(** C7 at a failing input.  The vector of the two distinct points (3, 5)
    and (5, 9007199254740991), valid doubles in ascending order, is a
    valid input.  Rounding gives the first point the signed value 4 and
    the second the signed value -4 for the line through them, so the scan
    sets both flags, the only pair is rejected and [computeHull] returns
    the empty sequence; [computeHull] on that result throws.  The same
    happens for the points (0.1, 0.1) and (0.4, 0.7).  (When the first
    result is not empty the second run returns it again:
    [second_run_on_nonempty_hull].) *)
Theorem C7_second_run_throws_on_steep_pair :
  steep_pair ≠ []
  ∧ Forall (λ p, Double.valid p.1 = true ∧ Double.valid p.2 = true) steep_pair
  ∧ point_lt (pt 3 5) (pt 5 (2 ^ 53 - 1)) = true
  ∧ point_eq (pt 3 5) (pt 5 (2 ^ 53 - 1)) = false
  ∧ Spec.hasNegative steep_pair (pt 3 5) (pt 5 (2 ^ 53 - 1)) = true
  ∧ Spec.hasPositive steep_pair (pt 3 5) (pt 5 (2 ^ 53 - 1)) = true
  ∧ brute_force_convex_hull steep_pair [] = Ok []
  ∧ computeHull steep_pair = Ok []
  ∧ computeHull [] = Throw no_points
  ∧ computeHull decimal_pair = Ok [].
Proof.
  split; [discriminate|]. split; [repeat constructor|].
  repeat split; vm_compute; reflexivity.
Qed.


(** * Further properties of the enumerator and of find_hull *)

(** A loop whose body changes nothing changes nothing. *)
Lemma for_each_skip {S} (idx : list Z) (body : Z → S → result S) (s : S) :
  (∀ i, i ∈ idx → body i s = Ok s) → for_each idx body s = Ok s.
Proof.
  induction idx as [|i idx IH]; intros Hbody; simpl; [reflexivity|].
  rewrite Hbody, bind_Ok by left.
  apply IH. intros j Hj. apply Hbody. right. exact Hj.
Qed.

Lemma brute_force_convex_hull_few (pts : list point) (ret : list line_segment) :
  vsize pts < 2 → brute_force_convex_hull pts ret = Ok ret.
Proof.
  intros Hsize. unfold brute_force_convex_hull, for_range.
  apply for_each_skip. intros i Hi. apply elem_of_seqZ in Hi.
  pose proof (vsize_nonneg pts) as H0.
  pose proof (wrap64_range (i + 1)) as Hj.
  assert (Hcases : vsize pts = 0 ∨ vsize pts = 1) by lia.
  destruct Hcases as [Hv|Hv]; rewrite Hv in *.
  - rewrite seqZ_nil by lia. reflexivity.
  - rewrite (wrap64_small (1 - 1)) in Hi by lia. lia.
Qed.

(** X1.  On a vector of fewer than two points the enumerator appends
    nothing and never runs the body of its loop over [j] (lines 195-220,
    which holds every read of [pts]): in each round of the outer loop the
    range of [j] is empty.  On one point the outer loop has no round.  On
    no point its bound [pts.size() - 1] wraps around to 2^64 - 1: the outer
    loop goes through 2^64 - 1 empty rounds before the call returns its
    output vector as it was. *)
Theorem X1_enumerator_on_fewer_than_two_points
    (pts : list point) (ret_sgmts : list line_segment) :
  vsize pts < 2 →
  (∀ i, i ∈ seqZ 0 (wrap64 (vsize pts - 1) - 0) →
        seqZ (wrap64 (i + 1)) (vsize pts - wrap64 (i + 1)) = [])
  ∧ (vsize pts = 1 → seqZ 0 (wrap64 (vsize pts - 1) - 0) = [])
  ∧ (vsize pts = 0 →
     wrap64 (vsize pts - 1) = 2 ^ 64 - 1
     ∧ Z.of_nat (length (seqZ 0 (wrap64 (vsize pts - 1) - 0))) = 2 ^ 64 - 1)
  ∧ brute_force_convex_hull pts ret_sgmts = Ok ret_sgmts.
Proof.
  intros Hsize. pose proof (vsize_nonneg pts) as H0.
  assert (Hinner : ∀ i, i ∈ seqZ 0 (wrap64 (vsize pts - 1) - 0) →
            seqZ (wrap64 (i + 1)) (vsize pts - wrap64 (i + 1)) = []).
  { intros i Hi. apply elem_of_seqZ in Hi.
    pose proof (wrap64_range (i + 1)) as Hj.
    assert (Hcases : vsize pts = 0 ∨ vsize pts = 1) by lia.
    destruct Hcases as [Hv|Hv]; rewrite Hv in *.
    - apply seqZ_nil. lia.
    - rewrite (wrap64_small (1 - 1)) in Hi by lia. lia. }
  split; [exact Hinner|]. split; [|split].
  - intros ->. rewrite (wrap64_small (1 - 1)) by lia. reflexivity.
  - intros ->. assert (Hw : wrap64 (0 - 1) = 2 ^ 64 - 1) by reflexivity.
    split; [exact Hw|]. rewrite Hw, length_seqZ.
    apply Z2Nat.id. discriminate.
  - unfold brute_force_convex_hull, for_range.
    apply for_each_skip. intros i Hi.
    rewrite (Hinner i Hi). reflexivity.
Qed.

(** The bound of the outer loop on the empty vector, and the enumerator on
    the single point (2,3). *)
Lemma X1_enumerator_on_fewer_than_two_points_witness :
  wrap64 (vsize (@nil point) - 1) = 2 ^ 64 - 1
  ∧ brute_force_convex_hull [pt 2 3] [] = Ok [].
Proof.
  split.
  - destruct (X1_enumerator_on_fewer_than_two_points [] [])
      as (_ & _ & H & _); [vm_compute; reflexivity|].
    destruct (H eq_refl) as [Hw _]. exact Hw.
  - apply X1_enumerator_on_fewer_than_two_points. vm_compute. reflexivity.
Defined.

Lemma brute_force_convex_hull_appends (pts : list point) (ret : list line_segment) :
  fits_size_t pts →
  brute_force_convex_hull pts ret = Ok (ret ++ Spec.edges pts).
Proof.
  intros Hfit. destruct (Z_lt_le_dec (vsize pts) 1) as [Hsmall|Hsize].
  - destruct pts as [|x pts];
      [|rewrite vsize_cons in Hsmall; pose proof (vsize_nonneg pts); lia].
    rewrite brute_force_convex_hull_few by (vm_compute; reflexivity).
    rewrite app_nil_r. reflexivity.
  - apply brute_force_convex_hull_edges; assumption.
Qed.

(** X2.  The enumerator only appends to its output vector: the segments
    it adds are the same whatever the vector holds, and what the vector
    holds stays in front of them, unchanged. *)
Theorem X2_enumerator_appends (pts : list point) :
  fits_size_t pts →
  ∃ sgmts, brute_force_convex_hull pts [] = Ok sgmts
    ∧ ∀ ret_sgmts, brute_force_convex_hull pts ret_sgmts = Ok (ret_sgmts ++ sgmts).
Proof.
  intros Hfit. exists (Spec.edges pts).
  split; [rewrite brute_force_convex_hull_appends by exact Hfit; reflexivity|].
  intros ret. apply brute_force_convex_hull_appends, Hfit.
Qed.

(** The enumerator on the square with its centre, after a segment that was
    already in the output vector. *)
Lemma X2_enumerator_appends_witness :
  ∃ sgmts, brute_force_convex_hull square_with_centre [] = Ok sgmts
    ∧ brute_force_convex_hull square_with_centre [(pt 7 7, pt 8 8)]
      = Ok ([(pt 7 7, pt 8 8)] ++ sgmts).
Proof.
  destruct (X2_enumerator_appends square_with_centre) as (sgmts & H0 & H);
    [vm_compute; reflexivity|].
  exists sgmts. split; [exact H0|apply H].
Defined.

(** The points [computeHull] returns are points of its input. *)
Lemma computeHull_subset (pts hull : list point) (q : point) :
  computeHull pts = Ok hull → q ∈ hull → q ∈ pts.
Proof.
  intros Hhull Hq. pose proof (computeHull_run pts) as Hrun.
  destruct pts as [|x [|y v]].
  - destruct Hrun as [Hrun _]. rewrite Hrun in Hhull. discriminate.
  - destruct Hrun as [Hrun _]. rewrite Hrun in Hhull. injection Hhull as <-.
    exact Hq.
  - destruct Hrun as (sgmts & Hs & Hrun & _).
    rewrite Hrun in Hhull. injection Hhull as <-.
    apply endpoints_set_elem in Hq. destruct Hq as (s & Hin & Hq).
    destruct (brute_force_convex_hull_sound _ _ _ Hs s Hin)
      as [H|(H1 & H2 & _)]; [inversion H|].
    destruct Hq as [->| ->]; assumption.
Qed.

Lemma computeHull_NoDup (pts hull : list point) :
  Forall no_nan pts → computeHull pts = Ok hull → NoDup hull.
Proof.
  intros Hnan Hhull. pose proof (computeHull_run pts) as Hrun.
  destruct pts as [|x [|y v]].
  - destruct Hrun as [Hrun _]. rewrite Hrun in Hhull. discriminate.
  - destruct Hrun as [Hrun _]. rewrite Hrun in Hhull. injection Hhull as <-.
    apply NoDup_singleton.
  - destruct Hrun as (sgmts & Hs & Hrun & _).
    rewrite Hrun in Hhull. injection Hhull as <-.
    apply sorted_NoDup, endpoints_set_sorted, (segments_no_nan _ _ Hnan Hs).
Qed.

(** X3.  [computeHull] invents no point: every point it returns is an
    element of its input, bit for bit, and, for an input without NaN, it
    returns no more points than it was given. *)
Theorem X3_hull_points_are_input_points (pts hull : list point) :
  computeHull pts = Ok hull →
  (∀ q, q ∈ hull → q ∈ pts)
  ∧ (Forall no_nan pts → vsize hull <= vsize pts).
Proof.
  intros Hhull. split; [intros q; apply (computeHull_subset _ _ _ Hhull)|].
  intros Hnan. unfold vsize. apply inj_le, submseteq_length, NoDup_submseteq.
  - apply (computeHull_NoDup pts hull Hnan Hhull).
  - intros q. apply (computeHull_subset _ _ _ Hhull).
Qed.

(** The corner (2,2), returned for the square with its centre, is a point
    of that input. *)
Lemma X3_hull_points_are_input_points_witness :
  pt 2 2 ∈ square_with_centre.
Proof.
  apply (X3_hull_points_are_input_points square_with_centre
           [pt 0 0; pt 0 2; pt 2 0; pt 2 2]).
  - vm_compute. reflexivity.
  - rewrite !elem_of_cons. tauto.
Defined.

(** A duplicate-free vector, in terms that do not mention positions. *)
Lemma distinct_alt (l : list point) :
  Forall no_nan l →
  distinct l ↔
  NoDup l ∧ ∀ x y, x ∈ l → y ∈ l → point_eq x y = true → x = y.
Proof.
  intros Hnan. rewrite Forall_forall in Hnan. split.
  - intros Hdist. split.
    + apply NoDup_alt. intros i j x Hi Hj.
      destruct (decide (i = j)) as [|Hij]; [assumption|].
      pose proof (Hdist i j x x Hij Hi Hj) as H.
      rewrite point_eq_refl in H by (eapply Hnan, list_elem_of_lookup_2, Hi).
      discriminate.
    + intros x y Hx Hy Heq.
      apply list_elem_of_lookup in Hx, Hy. destruct Hx as [i Hi], Hy as [j Hj].
      destruct (decide (i = j)) as [->|Hij]; [congruence|].
      rewrite (Hdist i j x y Hij Hi Hj) in Heq. discriminate.
  - intros [Hnd Heq] i j p q Hij Hi Hj.
    destruct (point_eq p q) eqn:E; [|reflexivity].
    assert (p = q) as ->.
    { apply Heq; [eapply list_elem_of_lookup_2; eassumption..|exact E]. }
    rewrite NoDup_alt in Hnd. destruct (Hij (Hnd i j q Hi Hj)).
Qed.

Lemma distinct_Permutation (l l' : list point) :
  Forall no_nan l → l ≡ₚ l' → distinct l → distinct l'.
Proof.
  intros Hnan Hperm Hdist.
  assert (Hnan' : Forall no_nan l') by (rewrite <- Hperm; exact Hnan).
  apply (distinct_alt l Hnan) in Hdist. destruct Hdist as [Hnd Heq].
  apply (distinct_alt l' Hnan'). split; [rewrite <- Hperm; exact Hnd|].
  intros x y Hx Hy. apply Heq; rewrite Hperm; assumption.
Qed.

(** The vertices found among the same points, in whatever order the points
    come. *)
Lemma vertices_incl (pts pts' : list point) (q : point) :
  Forall no_nan pts → distinct pts → Forall no_nan pts' → distinct pts' →
  (∀ x, x ∈ pts ↔ x ∈ pts') →
  q ∈ Spec.vertices pts → q ∈ Spec.vertices pts'.
Proof.
  intros Hnan Hdist Hnan' Hdist' Hsame Hq.
  apply endpoints_set_elem in Hq. destruct Hq as ([pi pj] & Hs & Hends).
  pose proof (edges_ends_differ pts _ Hnan Hdist Hs) as Hdiff.
  apply elem_of_edges in Hs. destruct Hs as [(i & j & _ & Hi & Hj) Hacc].
  simpl in *.
  apply (accepted_subset pts pts') in Hacc; [|intros p; apply Hsame].
  assert (Hpi : pi ∈ pts') by (apply Hsame; eapply list_elem_of_lookup_2, Hi).
  assert (Hpj : pj ∈ pts') by (apply Hsame; eapply list_elem_of_lookup_2, Hj).
  apply list_elem_of_lookup in Hpi, Hpj.
  destruct Hpi as [i' Hi'], Hpj as [j' Hj'].
  destruct (Nat.lt_total i' j') as [Hlt|[Heq|Hlt]]; [|subst j'; congruence|].
  - assert (Hs' : (pi, pj) ∈ Spec.edges pts').
    { apply elem_of_edges. split; [|exact Hacc]. exists i', j'. auto. }
    destruct (edges_in_vertices _ _ Hnan' Hdist' Hs') as [H1 H2]. simpl in *.
    destruct Hends as [->| ->]; assumption.
  - assert (Hs' : (pj, pi) ∈ Spec.edges pts').
    { apply elem_of_edges. split; [|rewrite accepted_swap; exact Hacc].
      exists j', i'. auto. }
    destruct (edges_in_vertices _ _ Hnan' Hdist' Hs') as [H1 H2]. simpl in *.
    destruct Hends as [->| ->]; assumption.
Qed.

Lemma vertices_Permutation (pts pts' : list point) :
  Forall no_nan pts → distinct pts → pts ≡ₚ pts' →
  Spec.vertices pts' = Spec.vertices pts.
Proof.
  intros Hnan Hdist Hperm.
  assert (Hnan' : Forall no_nan pts') by (rewrite <- Hperm; exact Hnan).
  pose proof (distinct_Permutation _ _ Hnan Hperm Hdist) as Hdist'.
  destruct (vertices_sorted pts Hnan) as [Hsorted _].
  destruct (vertices_sorted pts' Hnan') as [Hsorted' _].
  apply (StronglySorted_unique_strong (λ p q, point_lt p q = true));
    [|assumption..|].
  { intros p q _ _ Hpq Hqp. rewrite (point_lt_asym _ _ Hpq) in Hqp. discriminate. }
  apply NoDup_Permutation; [apply sorted_NoDup; assumption..|].
  intros q. split; apply vertices_incl; try assumption;
    intros x; rewrite Hperm; reflexivity.
Qed.

(** X4.  The result does not depend on the order of the input: for a
    vector of points without NaN and without duplicates, [computeHull]
    gives the same outcome on every rearrangement of the vector. *)
Theorem X4_hull_is_independent_of_input_order (pts pts' : list point) :
  Forall no_nan pts → distinct pts → fits_size_t pts → pts ≡ₚ pts' →
  computeHull pts' = computeHull pts.
Proof.
  intros Hnan Hdist Hfit Hperm.
  pose proof (Permutation_length Hperm) as Hlen.
  destruct (Z_lt_le_dec (vsize pts) 2) as [Hsmall|Hsize].
  - destruct pts as [|x [|y v]].
    + apply Permutation_nil_l in Hperm. subst pts'. reflexivity.
    + apply Permutation_singleton_l in Hperm. subst pts'. reflexivity.
    + rewrite !vsize_cons in Hsmall. pose proof (vsize_nonneg v). lia.
  - rewrite (computeHull_vertices pts Hsize Hfit).
    rewrite computeHull_vertices;
      [|unfold vsize in *; lia|unfold fits_size_t, vsize in *; lia].
    rewrite (vertices_Permutation pts pts' Hnan Hdist Hperm). reflexivity.
Qed.

(** The square with its centre, the centre first. *)
Lemma X4_hull_is_independent_of_input_order_witness :
  computeHull [pt 1 1; pt 0 0; pt 0 2; pt 2 0; pt 2 2]
  = computeHull square_with_centre.
Proof.
  apply X4_hull_is_independent_of_input_order.
  - repeat constructor.
  - apply distinctb_distinct. vm_compute. reflexivity.
  - vm_compute. reflexivity.
  - symmetry. apply (Permutation_cons_append [pt 0 0; pt 0 2; pt 2 0; pt 2 2]).
Defined.

Lemma vertices_two (pts : list point) :
  Forall no_nan pts → distinct pts →
  Spec.vertices pts = [] ∨ 2 <= vsize (Spec.vertices pts).
Proof.
  intros Hnan Hdist. destruct (Spec.vertices pts) as [|q l] eqn:Hv; [left; reflexivity|].
  right. rewrite <- Hv.
  assert (Hq : q ∈ Spec.vertices pts) by (rewrite Hv; left).
  pose proof Hq as Hq0. apply endpoints_set_elem in Hq0.
  destruct Hq0 as (s & Hs & _).
  destruct (edges_in_vertices pts s Hnan Hdist Hs) as [H1 H2].
  apply (two_elements _ s.1 s.2 H1 H2 (edges_ends_differ pts s Hnan Hdist Hs)).
Qed.

(** X5.  For at least two points, without NaN and without duplicates,
    [computeHull] never returns exactly one point: the result is empty or
    has at least two points. *)
Theorem X5_hull_of_several_points_is_never_one_point (pts hull : list point) :
  Forall no_nan pts → distinct pts → fits_size_t pts → 2 <= vsize pts →
  computeHull pts = Ok hull →
  hull = [] ∨ 2 <= vsize hull.
Proof.
  intros Hnan Hdist Hfit Hsize Hhull.
  rewrite (computeHull_vertices pts Hsize Hfit) in Hhull. injection Hhull as <-.
  apply vertices_two; assumption.
Qed.

(** The hull of the square with its centre has at least two points. *)
Lemma X5_hull_of_several_points_is_never_one_point_witness :
  [pt 0 0; pt 0 2; pt 2 0; pt 2 2] = [] ∨ 2 <= vsize [pt 0 0; pt 0 2; pt 2 0; pt 2 2].
Proof.
  apply (X5_hull_of_several_points_is_never_one_point square_with_centre).
  - repeat constructor.
  - apply distinctb_distinct. vm_compute. reflexivity.
  - vm_compute. reflexivity.
  - vm_compute. discriminate.
  - vm_compute. reflexivity.
Defined.

(** A call of [find_hull] on two different vectors, the first not empty. *)
Lemma find_hull_on_two_vectors
    (pts ret_hull_points : ref) (σ : state) (v w : list point) :
  pts ≠ ret_hull_points →
  vectors σ !! pts = Some v →
  vectors σ !! ret_hull_points = Some w →
  v ≠ [] →
  ∃ hull σ',
    computeHull v = Ok hull
    ∧ find_hull pts ret_hull_points σ = (Ok (), σ')
    ∧ vectors σ' !! pts = Some v
    ∧ vectors σ' !! ret_hull_points = Some (w ++ hull).
Proof.
  intros Hdiff Hp Hr Hne.
  pose proof (find_hull_run _ _ _ _ _ Hp Hr) as Hrun.
  pose proof (computeHull_run v) as Hmain.
  destruct v as [|x [|y v']]; [contradiction| |].
  - exists [x]. eexists. split; [apply Hmain|]. split; [exact Hrun|].
    cbn [vectors]. split; [rewrite lookup_insert_ne by auto; exact Hp|].
    apply lookup_insert_eq.
  - destruct Hrun as (sgmts & Hs & Hrun).
    destruct Hmain as (sgmts' & Hs' & Hhull & _).
    rewrite Hs in Hs'. injection Hs' as <-.
    exists (endpoints_set sgmts). eexists. split; [exact Hhull|].
    split; [exact Hrun|]. cbn [vectors].
    split; [rewrite lookup_insert_ne by auto; exact Hp|].
    apply lookup_insert_eq.
Qed.

(** X6.  [find_hull] does not clear its output vector: two calls in a row
    on the same two vectors leave the hull points twice at the end of the
    output vector. *)
Theorem X6_find_hull_twice_appends_twice
    (pts ret_hull_points : ref) (σ : state) (v w : list point) :
  pts ≠ ret_hull_points →
  vectors σ !! pts = Some v →
  vectors σ !! ret_hull_points = Some w →
  v ≠ [] →
  ∃ hull σ',
    computeHull v = Ok hull
    ∧ (find_hull pts ret_hull_points ;; find_hull pts ret_hull_points) σ
      = (Ok (), σ')
    ∧ vectors σ' !! pts = Some v
    ∧ vectors σ' !! ret_hull_points = Some (w ++ hull ++ hull).
Proof.
  intros Hdiff Hp Hr Hne.
  destruct (find_hull_on_two_vectors _ _ _ _ _ Hdiff Hp Hr Hne)
    as (hull & σ1 & Hhull & Hrun1 & Hp1 & Hr1).
  destruct (find_hull_on_two_vectors _ _ _ _ _ Hdiff Hp1 Hr1 Hne)
    as (hull' & σ2 & Hhull' & Hrun2 & Hp2 & Hr2).
  rewrite Hhull in Hhull'. injection Hhull' as <-.
  exists hull, σ2. split; [exact Hhull|].
  split; [rewrite (run_bind _ _ _ _ _ Hrun1); exact Hrun2|].
  split; [exact Hp2|]. rewrite Hr2, <- app_assoc. reflexivity.
Qed.

(** Two calls on [main]'s vectors for the single point (2,3). *)
Lemma X6_find_hull_twice_appends_twice_witness :
  ∃ hull σ',
    computeHull [pt 2 3] = Ok hull
    ∧ (find_hull pts_ref hull_pts_ref ;; find_hull pts_ref hull_pts_ref)
        (main_state [pt 2 3]) = (Ok (), σ')
    ∧ vectors σ' !! pts_ref = Some [pt 2 3]
    ∧ vectors σ' !! hull_pts_ref = Some ([] ++ hull ++ hull).
Proof.
  apply X6_find_hull_twice_appends_twice;
    [discriminate|reflexivity|reflexivity|discriminate].
Defined.


(** * read_points *)

Lemma list_pair_ind {A} (P : list A → Prop) :
  P [] → (∀ x, P [x]) → (∀ x y l, P l → P (x :: y :: l)) → ∀ l, P l.
Proof.
  intros Hnil Hone Hstep l.
  assert (H : P l ∧ ∀ x, P (x :: l)).
  { induction l as [|y l [IH1 IH2]]; [auto|].
    split; [apply IH2|]. intros x. apply Hstep, IH1. }
  apply H.
Qed.

(** The loop inserts the points of the file one after the other. *)
Lemma read_loop_pairs (numbers : list double) (s : list point) :
  read_loop numbers s = transform_insert (pairs numbers) s (λ p, p).
Proof.
  revert s. induction numbers as [| |x y l IH] using list_pair_ind;
    intros s; [reflexivity..|].
  simpl. apply IH.
Qed.

Lemma pairs_no_nan (numbers : list double) :
  Forall (λ x, Double.is_nan x = false) numbers → Forall no_nan (pairs numbers).
Proof.
  induction numbers as [| |x y l IH] using list_pair_ind; intros H;
    [constructor..|].
  apply Forall_cons in H. destruct H as [Hx H].
  apply Forall_cons in H. destruct H as [Hy H].
  simpl. constructor; [split; assumption|apply IH, H].
Qed.

Lemma pairs_snoc (numbers : list double) (x : double) :
  Nat.Even (length numbers) → pairs (numbers ++ [x]) = pairs numbers.
Proof.
  induction numbers as [| |a b l IH] using list_pair_ind; intros Heven.
  - reflexivity.
  - destruct Heven as [k Hk]. simpl in Hk. lia.
  - simpl. rewrite IH; [reflexivity|].
    destruct Heven as [k Hk]. simpl in Hk. exists (k - 1)%nat. lia.
Qed.

Lemma pairs_snoc_pair (numbers : list double) (x y : double) :
  Nat.Even (length numbers) → pairs (numbers ++ [x; y]) = pairs numbers ++ [(x, y)].
Proof.
  induction numbers as [| |a b l IH] using list_pair_ind; intros Heven.
  - reflexivity.
  - destruct Heven as [k Hk]. simpl in Hk. lia.
  - simpl. rewrite IH; [reflexivity|].
    destruct Heven as [k Hk]. simpl in Hk. exists (k - 1)%nat. lia.
Qed.

Lemma points_of_sorted (ifs : ifstream) :
  Forall (λ x, Double.is_nan x = false) (extracted ifs) →
  StronglySorted (λ p q, point_lt p q = true) (points_of ifs)
  ∧ Forall no_nan (points_of ifs).
Proof.
  intros Hnan. unfold points_of. rewrite read_loop_pairs.
  apply (transform_insert_sorted (pairs (extracted ifs)) (λ p, p) []);
    [apply pairs_no_nan, Hnan|constructor|constructor].
Qed.

Lemma points_of_elem (ifs : ifstream) (q : point) :
  q ∈ points_of ifs → q ∈ pairs (extracted ifs).
Proof.
  unfold points_of. rewrite read_loop_pairs. intros H.
  apply transform_insert_elem in H. destruct H as [H|(e & He & ->)];
    [inversion H|exact He].
Qed.

Lemma points_of_has (ifs : ifstream) (p : point) :
  Forall (λ x, Double.is_nan x = false) (extracted ifs) →
  p ∈ pairs (extracted ifs) → ∃ q, q ∈ points_of ifs ∧ point_eq q p = true.
Proof.
  intros Hnan Hp. pose proof (pairs_no_nan _ Hnan) as Hpn.
  destruct (points_of_sorted ifs Hnan) as [_ Hsn].
  rewrite Forall_forall in Hpn, Hsn.
  unfold points_of in *. rewrite read_loop_pairs in *.
  destruct (transform_insert_has (pairs (extracted ifs)) (λ p, p) [] p Hp)
    as (q & Hq & H1 & H2).
  exists q. split; [exact Hq|]. apply point_equiv_eq; auto.
Qed.

(** A call of [read_points] on a stream that opens and is read to its end. *)
Lemma read_points_run (filename : string) (ifs : ifstream) (r : ref)
    (σ : state) (w : list point) :
  is_open ifs = true → ending ifs = end_of_file → vectors σ !! r = Some w →
  read_points filename ifs r σ
  = (Ok (), State (<[r := w ++ points_of ifs]> (vectors σ)) (calls σ)).
Proof.
  intros Hopen Hend Hr. unfold read_points. rewrite Hopen, Hend.
  apply copy_back_inserter_run, Hr.
Qed.

(** X7.  When the file opens and is read to its end, [read_points] appends
    to [ret_pts], behind what the vector held, the points of the file
    without duplicates and in ascending order: what is appended is
    strictly ascending, holds only points written in the file, holds for
    each point of the file a point that compares equal to it, and holds no
    two points that compare equal.  (The numbers of the file are not
    NaN.) *)
Theorem X7_read_points_appends_the_sorted_points
    (filename : string) (ifs : ifstream) (ret_pts : ref)
    (σ : state) (w : list point) :
  is_open ifs = true → ending ifs = end_of_file →
  Forall (λ x, Double.is_nan x = false) (extracted ifs) →
  vectors σ !! ret_pts = Some w →
  ∃ new,
    read_points filename ifs ret_pts σ
    = (Ok (), State (<[ret_pts := w ++ new]> (vectors σ)) (calls σ))
    ∧ (∀ (i j : nat) p q,
         (i < j)%nat → new !! i = Some p → new !! j = Some q →
         point_lt p q = true)
    ∧ (∀ q, q ∈ new → q ∈ pairs (extracted ifs))
    ∧ (∀ p, p ∈ pairs (extracted ifs) → ∃ q, q ∈ new ∧ point_eq q p = true)
    ∧ distinct new.
Proof.
  intros Hopen Hend Hnan Hr. exists (points_of ifs).
  destruct (points_of_sorted ifs Hnan) as [Hsorted Hsn].
  split; [apply read_points_run; assumption|].
  split; [intros i j p q; apply (sorted_lookup _ _ _ _ _ _ Hsorted)|].
  split; [apply points_of_elem|].
  split; [intros p; apply (points_of_has ifs p Hnan)|].
  apply sorted_distinct; assumption.
Qed.

(** The file [2 2  0 0  2 2  1 5] read into an empty vector. *)
Lemma X7_read_points_appends_the_sorted_points_witness :
  ∃ new,
    read_points "f"
      (readable [Double.of_Z 2; Double.of_Z 2; Double.of_Z 0; Double.of_Z 0;
                 Double.of_Z 2; Double.of_Z 2; Double.of_Z 1; Double.of_Z 5])
      pts_ref (main_state [])
    = (Ok (), State (<[pts_ref := [] ++ new]> (vectors (main_state [])))
                    (calls (main_state [])))
    ∧ distinct new.
Proof.
  destruct (X7_read_points_appends_the_sorted_points "f"
    (readable [Double.of_Z 2; Double.of_Z 2; Double.of_Z 0; Double.of_Z 0;
               Double.of_Z 2; Double.of_Z 2; Double.of_Z 1; Double.of_Z 5])
    pts_ref (main_state []) [])
    as (new & Hrun & _ & _ & _ & Hdist);
    [reflexivity|reflexivity|repeat constructor|reflexivity|].
  exists new. split; [exact Hrun|exact Hdist].
Defined.

Lemma prefix_append (s t : string) : String.prefix s (String.append s t) = true.
Proof.
  induction s as [|a s IH]; simpl; [destruct t; reflexivity|].
  destruct (Ascii.ascii_dec a a) as [_|Hne]; [exact IH|destruct Hne; reflexivity].
Qed.

(** X8.  [read_points] fails as a whole or not at all: it throws exactly
    when the file does not open or the reading does not stop at the end of
    the file (an unreadable stream, or something that is not a number);
    when it throws, the vector [ret_pts] and the rest of the store are as
    before the call, whatever points had been read by then, and the message
    starts with the name of the file. *)
Theorem X8_read_points_fails_without_effect
    (filename : string) (ifs : ifstream) (ret_pts : ref)
    (σ : state) (w : list point) :
  vectors σ !! ret_pts = Some w →
  ((∃ what, (read_points filename ifs ret_pts σ).1 = Throw what)
   ↔ (is_open ifs = false ∨ ending ifs ≠ end_of_file))
  ∧ (∀ what, (read_points filename ifs ret_pts σ).1 = Throw what →
       (read_points filename ifs ret_pts σ).2 = σ
       ∧ String.prefix filename what = true)
  ∧ (read_points filename ifs ret_pts σ).1 ≠ Undefined.
Proof.
  intros Hr. unfold read_points.
  destruct (is_open ifs) eqn:Hopen; [destruct (ending ifs) eqn:Hend|].
  - rewrite (copy_back_inserter_run _ _ _ w) by exact Hr. simpl.
    split; [|split; [intros what [=]|discriminate]].
    split; [intros [what [=]]|intros [[=]|H]; destruct H; reflexivity].
  - simpl. split; [|split; [|discriminate]].
    + split; [intros _; right; discriminate|intros _; eauto].
    + intros what [= <-]. split; [reflexivity|apply prefix_append].
  - simpl. split; [|split; [|discriminate]].
    + split; [intros _; right; discriminate|intros _; eauto].
    + intros what [= <-]. split; [reflexivity|apply prefix_append].
  - simpl. split; [|split; [|discriminate]].
    + split; [intros _; left; reflexivity|intros _; eauto].
    + intros what [= <-]. split; [reflexivity|apply prefix_append].
Qed.

(** A file whose third number cannot be converted, read into [main]'s
    empty vector: the point read before is not delivered. *)
Lemma X8_read_points_fails_without_effect_witness :
  read_points "f"
    (Ifstream true [Double.of_Z 1; Double.of_Z 2] conversion_error "")
    pts_ref (main_state [])
  = (Throw "f: error reading point", main_state []).
Proof.
  destruct (X8_read_points_fails_without_effect "f"
    (Ifstream true [Double.of_Z 1; Double.of_Z 2] conversion_error "")
    pts_ref (main_state []) [] eq_refl) as (_ & H & _).
  destruct (H "f: error reading point"%string eq_refl) as [Hstate _].
  apply injective_projections; [reflexivity|exact Hstate].
Defined.

(** X9.  A last number without a partner is dropped without notice: a file
    with an odd count of numbers is read like the file without its last
    number. *)
Theorem X9_read_points_drops_an_unpaired_number
    (filename : string) (numbers : list double) (x : double)
    (e : stream_end) (err : string) (ret_pts : ref) (σ : state) :
  Nat.Even (length numbers) →
  read_points filename (Ifstream true (numbers ++ [x]) e err) ret_pts σ
  = read_points filename (Ifstream true numbers e err) ret_pts σ.
Proof.
  intros Heven. unfold read_points. simpl.
  rewrite !read_loop_pairs, (pairs_snoc numbers x Heven). reflexivity.
Qed.

(** The file [1 2 3] is read like the file [1 2]. *)
Lemma X9_read_points_drops_an_unpaired_number_witness :
  read_points "f"
    (Ifstream true ([Double.of_Z 1; Double.of_Z 2] ++ [Double.of_Z 3])
       end_of_file "") pts_ref (main_state [])
  = read_points "f"
      (Ifstream true [Double.of_Z 1; Double.of_Z 2] end_of_file "")
      pts_ref (main_state []).
Proof.
  apply X9_read_points_drops_an_unpaired_number. exists 1%nat. reflexivity.
Defined.

(** Inserting a point the set holds an equal of leaves the set as it is. *)
Lemma set_insert_absorb (x : point) (s : list point) :
  no_nan x → Forall no_nan s →
  StronglySorted (λ p q, point_lt p q = true) s →
  (∃ q, q ∈ s ∧ point_eq q x = true) →
  set_insert x s = s.
Proof.
  intros Hx Hs Hsorted. induction Hsorted as [|y s Hsorted IH Hy];
    intros (q & Hq & Heq); [inversion Hq|].
  apply Forall_cons in Hs. destruct Hs as [Hny Hs].
  rewrite Forall_forall in Hy. pose proof Hs as Hs'. rewrite Forall_forall in Hs'.
  assert (Hnq : no_nan q).
  { apply elem_of_cons in Hq. destruct Hq as [->|Hq]; auto. }
  pose proof (point_eq_not_lt q x Hnq Hx Heq) as Hqx.
  pose proof (point_eq_not_lt x q Hx Hnq (point_eq_sym q x Hnq Hx Heq)) as Hxq.
  simpl. destruct (point_lt x y) eqn:Hxy.
  - apply elem_of_cons in Hq. destruct Hq as [->|Hq]; [congruence|].
    rewrite (point_lt_trans x y q Hx Hny Hnq Hxy (Hy q Hq)) in Hxq. discriminate.
  - destruct (point_lt y x) eqn:Hyx; [|reflexivity].
    apply elem_of_cons in Hq. destruct Hq as [->|Hq]; [congruence|].
    rewrite IH; [reflexivity|exact Hs|eauto].
Qed.

Lemma point_eq_trans (x y z : point) :
  no_nan x → no_nan y → no_nan z →
  point_eq x y = true → point_eq y z = true → point_eq x z = true.
Proof.
  intros Hx Hy Hz Hxy Hyz.
  apply (point_eq_pkey x y Hx Hy) in Hxy. apply (point_eq_pkey y z Hy Hz) in Hyz.
  apply (point_eq_pkey x z Hx Hz). congruence.
Qed.

(** X10.  A point that is written again at the end of the file is ignored:
    when an earlier point of the file compares equal to the last one, the
    file is read like the file without its last point. *)
Theorem X10_read_points_ignores_a_repeated_point
    (filename : string) (numbers : list double) (x y : double)
    (e : stream_end) (err : string) (ret_pts : ref) (σ : state) :
  Nat.Even (length numbers) →
  Forall (λ x, Double.is_nan x = false) (numbers ++ [x; y]) →
  (∃ q, q ∈ pairs numbers ∧ point_eq q (x, y) = true) →
  read_points filename (Ifstream true (numbers ++ [x; y]) e err) ret_pts σ
  = read_points filename (Ifstream true numbers e err) ret_pts σ.
Proof.
  intros Heven Hnan (q & Hq & Heq).
  apply Forall_app in Hnan. destruct Hnan as [Hnan Hxy].
  assert (Hp : no_nan (x, y)).
  { apply Forall_cons in Hxy. destruct Hxy as [Hx Hxy].
    apply Forall_cons in Hxy. destruct Hxy as [Hy _]. split; assumption. }
  destruct (points_of_sorted (Ifstream true numbers e err) Hnan) as [Hsorted Hsn].
  destruct (points_of_has (Ifstream true numbers e err) q Hnan Hq)
    as (q' & Hq' & Heq').
  assert (Hnq : no_nan q).
  { pose proof (pairs_no_nan _ Hnan) as H. rewrite Forall_forall in H. auto. }
  assert (Hnq' : no_nan q') by (rewrite Forall_forall in Hsn; auto).
  unfold points_of in *. simpl in *.
  unfold read_points. simpl.
  rewrite (read_loop_pairs (numbers ++ [x; y])), (pairs_snoc_pair _ _ _ Heven).
  unfold transform_insert at 1. rewrite foldl_app. simpl.
  change (foldl (λ s p, set_insert p s) [] (pairs numbers))
    with (transform_insert (pairs numbers) [] (λ p : point, p)).
  rewrite <- read_loop_pairs.
  rewrite set_insert_absorb; [reflexivity|assumption..|].
  exists q'. split; [exact Hq'|].
  apply (point_eq_trans q' q (x, y)); assumption.
Qed.

(** The file [1 2  3 4  1 2] is read like the file [1 2  3 4]. *)
Lemma X10_read_points_ignores_a_repeated_point_witness :
  read_points "f"
    (Ifstream true ([Double.of_Z 1; Double.of_Z 2; Double.of_Z 3; Double.of_Z 4]
                    ++ [Double.of_Z 1; Double.of_Z 2]) end_of_file "")
    pts_ref (main_state [])
  = read_points "f"
      (Ifstream true [Double.of_Z 1; Double.of_Z 2; Double.of_Z 3; Double.of_Z 4]
         end_of_file "")
      pts_ref (main_state []).
Proof.
  apply X10_read_points_ignores_a_repeated_point.
  - exists 2%nat. reflexivity.
  - repeat constructor.
  - exists (pt 1 2). split; [left|vm_compute; reflexivity].
Defined.

(** * Printing and main *)

Lemma endl_count_app (l1 l2 : ostream) :
  endl_count (l1 ++ l2) = (endl_count l1 + endl_count l2)%nat.
Proof.
  induction l1 as [|i l1 IH]; [reflexivity|].
  destruct i; simpl; rewrite IH; reflexivity.
Qed.

Lemma print_points_app (os : ostream) (pts : list point) :
  print_points os pts = os ++ print_points [] pts.
Proof.
  revert os. induction pts as [|p pts IH]; intros os;
    [rewrite app_nil_r; reflexivity|].
  destruct pts as [|p' pts]; [reflexivity|].
  change (print_points os (p :: p' :: pts))
    with (print_points (print_point os p ++ [Endl]) (p' :: pts)).
  change (print_points [] (p :: p' :: pts))
    with (print_points (print_point [] p ++ [Endl]) (p' :: pts)).
  rewrite IH, (IH (print_point [] p ++ [Endl])).
  unfold print_point. rewrite <- !app_assoc. reflexivity.
Qed.

Lemma print_points_endl_count (pts : list point) :
  endl_count (print_points [] pts) = (length pts - 1)%nat.
Proof.
  induction pts as [|p pts IH]; [reflexivity|].
  destruct pts as [|p' pts]; [reflexivity|].
  change (print_points [] (p :: p' :: pts))
    with (print_points (print_point [] p ++ [Endl]) (p' :: pts)).
  rewrite print_points_app, endl_count_app, IH. simpl. lia.
Qed.

Lemma print_points_last (pts : list point) :
  pts ≠ [] → last (print_points [] pts) = Some (Text ")").
Proof.
  induction pts as [|p pts IH]; [contradiction|]. intros _.
  destruct pts as [|p' pts]; [reflexivity|].
  change (print_points [] (p :: p' :: pts))
    with (print_points (print_point [] p ++ [Endl]) (p' :: pts)).
  rewrite print_points_app, last_app, IH by discriminate. reflexivity.
Qed.

(** X11.  Printing a vector of points keeps what the stream held and
    writes the points with [std::endl] between them only: for n points
    there are n - 1 line ends, none after the last point, whose closing
    parenthesis is the last thing written; for no point nothing is
    written. *)
Theorem X11_print_points_separates_the_points (os : ostream) (pts : list point) :
  ∃ out, print_points os pts = os ++ out
    ∧ endl_count out = (length pts - 1)%nat
    ∧ (pts = [] → out = [])
    ∧ (pts ≠ [] → last out = Some (Text ")")).
Proof.
  exists (print_points [] pts).
  split; [apply print_points_app|]. split; [apply print_points_endl_count|].
  split; [intros ->; reflexivity|apply print_points_last].
Qed.

(** The [try] block when [read_points] throws. *)
Lemma try_block_unreadable (infile : string) (ifs : ifstream)
    (start_tv end_tv : timeval) :
  is_open ifs = false ∨ ending ifs ≠ end_of_file →
  ∃ what,
    try_block infile ifs start_tv end_tv (main_state [])
    = (Throw what, main_state [])
    ∧ String.prefix infile what = true.
Proof.
  intros Hbad. unfold try_block, mbind, M_bind, read_points.
  destruct (is_open ifs) eqn:Hopen; [destruct (ending ifs) eqn:Hend|].
  - destruct Hbad as [[=]|H]; destruct H; reflexivity.
  - eexists. split; [reflexivity|apply prefix_append].
  - eexists. split; [reflexivity|apply prefix_append].
  - eexists. split; [reflexivity|apply prefix_append].
Qed.

Lemma read_points_into_main (infile : string) (ifs : ifstream) :
  is_open ifs = true → ending ifs = end_of_file →
  ∃ σ1, read_points infile ifs pts_ref (main_state []) = (Ok (), σ1)
    ∧ vectors σ1 !! pts_ref = Some (points_of ifs)
    ∧ vectors σ1 !! hull_pts_ref = Some []
    ∧ calls σ1 = [].
Proof.
  intros Hopen Hend. eexists.
  split; [apply (read_points_run infile ifs pts_ref (main_state []) []);
          [assumption..|reflexivity]|].
  cbn [vectors calls]. split; [apply lookup_insert_eq|].
  split; [|reflexivity]. rewrite lookup_insert_ne by discriminate. reflexivity.
Qed.

(** The [try] block on a file that spells no point. *)
Lemma try_block_no_point (infile : string) (ifs : ifstream)
    (start_tv end_tv : timeval) :
  is_open ifs = true → ending ifs = end_of_file → points_of ifs = [] →
  ∃ σ', try_block infile ifs start_tv end_tv (main_state [])
        = (Throw no_points, σ').
Proof.
  intros Hopen Hend Hnone.
  destruct (read_points_into_main infile ifs Hopen Hend)
    as (σ1 & Hread & Hp & Hr & _).
  rewrite Hnone in Hp.
  pose proof (find_hull_run _ _ _ _ _ Hp Hr) as Hrun. cbv beta iota in Hrun.
  exists σ1. unfold try_block.
  rewrite (run_bind _ _ _ _ _ Hread).
  unfold mbind at 1. unfold M_bind. rewrite Hrun. reflexivity.
Qed.

(** The [try] block on a file that spells a point at least. *)
Lemma try_block_report (infile : string) (ifs : ifstream)
    (start_tv end_tv : timeval) :
  is_open ifs = true → ending ifs = end_of_file → points_of ifs ≠ [] →
  ∃ hull elapsed σ',
    computeHull (points_of ifs) = Ok hull
    ∧ try_block infile ifs start_tv end_tv (main_state [])
      = (Ok ([Text "Convex Hull ("; Size (vsize hull); Text " Points):"; Endl]
             ++ print_points [] hull
             ++ [Endl; Text "Elapsed Time (microseconds): "; Long elapsed; Endl]),
         σ').
Proof.
  intros Hopen Hend Hsome.
  destruct (read_points_into_main infile ifs Hopen Hend)
    as (σ1 & Hread & Hp & Hr & _).
  assert (Hdiff : pts_ref ≠ hull_pts_ref) by discriminate.
  destruct (find_hull_on_two_vectors _ _ _ _ _ Hdiff Hp Hr Hsome)
    as (hull & σ2 & Hhull & Hrun & _ & Hr2).
  exists hull. eexists. exists σ2. split; [exact Hhull|].
  unfold try_block.
  rewrite (run_bind _ _ _ _ _ Hread), (run_bind _ _ _ _ _ Hrun).
  rewrite (run_bind _ _ _ _ _ (run_load _ _ _ Hr2)). reflexivity.
Qed.

(** X12.  With a file name as its only argument, a file that opens, is
    read to its end and spells at least one point, [main] writes nothing
    to [std::cerr] and writes to [std::cout] the report of the hull that
    [computeHull] gives for the points read: a header with the number of
    hull points, the hull points, and the line of the elapsed time. *)
Theorem X12_main_reports_the_hull_of_the_file
    (name infile : string) (open : string → ifstream)
    (start_tv end_tv : timeval) :
  is_open (open infile) = true → ending (open infile) = end_of_file →
  points_of (open infile) ≠ [] →
  ∃ hull elapsed,
    computeHull (points_of (open infile)) = Ok hull
    ∧ main [name; infile] open start_tv end_tv
      = Ok (Console
              ([Text "Convex Hull ("; Size (vsize hull); Text " Points):"; Endl]
               ++ print_points [] hull
               ++ [Endl; Text "Elapsed Time (microseconds): "; Long elapsed; Endl])
              [], 0).
Proof.
  intros Hopen Hend Hsome.
  destruct (try_block_report infile (open infile) start_tv end_tv Hopen Hend Hsome)
    as (hull & elapsed & σ' & Hhull & Hrun).
  exists hull, elapsed. split; [exact Hhull|].
  unfold main. cbn [vsize length Z.of_nat Z.eqb negb lookup].
  simpl. rewrite Hrun. reflexivity.
Qed.

(** [main] on a file with the five points of the square with its centre. *)
Lemma X12_main_reports_the_hull_of_the_file_witness :
  ∃ hull elapsed,
    computeHull
      (points_of (readable [Double.of_Z 0; Double.of_Z 0; Double.of_Z 0; Double.of_Z 2;
                            Double.of_Z 2; Double.of_Z 0; Double.of_Z 2; Double.of_Z 2;
                            Double.of_Z 1; Double.of_Z 1])) = Ok hull
    ∧ main ["hull"; "square.txt"]%string
        (λ _, readable [Double.of_Z 0; Double.of_Z 0; Double.of_Z 0; Double.of_Z 2;
                        Double.of_Z 2; Double.of_Z 0; Double.of_Z 2; Double.of_Z 2;
                        Double.of_Z 1; Double.of_Z 1])
        (Timeval 10 0) (Timeval 10 250)
      = Ok (Console
              ([Text "Convex Hull ("; Size (vsize hull); Text " Points):"; Endl]
               ++ print_points [] hull
               ++ [Endl; Text "Elapsed Time (microseconds): "; Long elapsed; Endl])
              [], 0).
Proof.
  apply (X12_main_reports_the_hull_of_the_file "hull" "square.txt"
           (λ _, readable [Double.of_Z 0; Double.of_Z 0; Double.of_Z 0; Double.of_Z 2;
                           Double.of_Z 2; Double.of_Z 0; Double.of_Z 2; Double.of_Z 2;
                           Double.of_Z 1; Double.of_Z 1]));
    [reflexivity|reflexivity|vm_compute; discriminate].
Defined.

(** X13.  With a file name as its only argument, [main] writes nothing to
    [std::cout] and one line to [std::cerr] when no hull can be computed:
    the message of [read_points], which starts with the name of the file,
    when the file does not open or is not read to its end; the message of
    [find_hull] when the file is read to its end but spells no point (an
    empty file, or a file with one number only). *)
Theorem X13_main_writes_the_error_to_cerr
    (name infile : string) (open : string → ifstream)
    (start_tv end_tv : timeval) :
  (is_open (open infile) = false ∨ ending (open infile) ≠ end_of_file →
   ∃ what,
     main [name; infile] open start_tv end_tv
     = Ok (Console [] [Text what; Endl], 0)
     ∧ String.prefix infile what = true)
  ∧ (is_open (open infile) = true → ending (open infile) = end_of_file →
     (length (extracted (open infile)) < 2)%nat →
     main [name; infile] open start_tv end_tv
     = Ok (Console [] [Text no_points; Endl], 0)).
Proof.
  split.
  - intros Hbad.
    destruct (try_block_unreadable infile (open infile) start_tv end_tv Hbad)
      as (what & Hrun & Hpre).
    exists what. split; [|exact Hpre].
    unfold main. simpl. rewrite Hrun. reflexivity.
  - intros Hopen Hend Hshort.
    assert (Hnone : points_of (open infile) = []).
    { unfold points_of. destruct (extracted (open infile)) as [|x [|y l]];
        [reflexivity..|simpl in Hshort; lia]. }
    destruct (try_block_no_point infile (open infile) start_tv end_tv
                Hopen Hend Hnone) as (σ' & Hrun).
    unfold main. simpl. rewrite Hrun. reflexivity.
Qed.

(** [main] on a file that holds the single number 7. *)
Lemma X13_main_writes_the_error_to_cerr_witness :
  main ["hull"; "seven.txt"]%string (λ _, readable [Double.of_Z 7])
    (Timeval 10 0) (Timeval 10 250)
  = Ok (Console [] [Text no_points; Endl], 0).
Proof.
  destruct (X13_main_writes_the_error_to_cerr "hull" "seven.txt"
              (λ _, readable [Double.of_Z 7]) (Timeval 10 0) (Timeval 10 250))
    as [_ H].
  apply H; [reflexivity|reflexivity|simpl; lia].
Defined.

(** X14.  [main] never reports a failure through the value it returns:
    started with at least the program name, it returns 0 whatever the
    arguments, the file and the clock are, and no exception leaves it.
    With exactly one argument after the program name it writes to one of
    [std::cout] and [std::cerr] and leaves the other empty. *)
Theorem X14_main_returns_zero
    (argv : list string) (open : string → ifstream) (start_tv end_tv : timeval) :
  argv ≠ [] →
  ∃ io, main argv open start_tv end_tv = Ok (io, 0)
    ∧ (vsize argv = 2 →
       (cout io = [] ∧ cerr io ≠ []) ∨ (cout io ≠ [] ∧ cerr io = [])).
Proof.
  intros Hne. unfold main.
  destruct (vsize argv =? 2) eqn:Hargc; simpl.
  - apply Z.eqb_eq in Hargc.
    destruct argv as [|name [|infile [|extra argv]]];
      try (unfold vsize in Hargc; simpl in Hargc; lia).
    simpl.
    destruct (is_open (open infile)) eqn:Hopen;
      [destruct (ending (open infile)) eqn:Hend|].
    + destruct (points_of (open infile)) as [|p l] eqn:Hpts.
      * destruct (try_block_no_point infile (open infile) start_tv end_tv
                    Hopen Hend Hpts) as (σ' & ->).
        eexists. split; [reflexivity|]. intros _. left. split; [reflexivity|discriminate].
      * destruct (try_block_report infile (open infile) start_tv end_tv Hopen Hend)
          as (hull & elapsed & σ' & _ & ->); [rewrite Hpts; discriminate|].
        eexists. split; [reflexivity|]. intros _. right.
        split; [discriminate|reflexivity].
    + destruct (try_block_unreadable infile (open infile) start_tv end_tv)
        as (what & -> & _); [right; rewrite Hend; discriminate|].
      eexists. split; [reflexivity|]. intros _. left. split; [reflexivity|discriminate].
    + destruct (try_block_unreadable infile (open infile) start_tv end_tv)
        as (what & -> & _); [right; rewrite Hend; discriminate|].
      eexists. split; [reflexivity|]. intros _. left. split; [reflexivity|discriminate].
    + destruct (try_block_unreadable infile (open infile) start_tv end_tv)
        as (what & -> & _); [left; exact Hopen|].
      eexists. split; [reflexivity|]. intros _. left. split; [reflexivity|discriminate].
  - apply Z.eqb_neq in Hargc. destruct argv as [|name argv]; [contradiction|].
    simpl. eexists. split; [reflexivity|]. intros H. contradiction.
Qed.

(** [main] started without a file name. *)
Lemma X14_main_returns_zero_witness :
  ∃ io, main ["hull"%string] (λ _, readable []) (Timeval 10 0) (Timeval 10 250)
        = Ok (io, 0).
Proof.
  destruct (X14_main_returns_zero ["hull"%string] (λ _, readable [])
              (Timeval 10 0) (Timeval 10 250)) as (io & H & _); [discriminate|].
  exists io. exact H.
Defined.

(** * Running computeHull on its own result *)

(** X15.  A second run changes nothing unless the first result is empty:
    for every vector of points without NaN and without duplicates, if
    [computeHull] returns a non-empty sequence, then [computeHull] on that
    sequence returns the same sequence. *)
Theorem X15_second_run_returns_a_nonempty_hull_again (pts hull : list point) :
  Forall no_nan pts → distinct pts → fits_size_t pts →
  computeHull pts = Ok hull → hull ≠ [] →
  computeHull hull = Ok hull.
Proof.
  intros Hnan Hdist Hfit Hhull Hne.
  destruct (Z_lt_le_dec (vsize pts) 2) as [Hsmall|Hsize].
  - pose proof (computeHull_run pts) as Hrun.
    destruct pts as [|x [|y v]].
    + destruct Hrun as [Hrun _]. rewrite Hrun in Hhull. discriminate.
    + destruct Hrun as [Hrun _]. rewrite Hrun in Hhull. injection Hhull as <-.
      apply (computeHull_run [x]).
    + rewrite !vsize_cons in Hsmall. pose proof (vsize_nonneg v). lia.
  - rewrite (computeHull_vertices pts Hsize Hfit) in Hhull. injection Hhull as <-.
    destruct (vertices_sorted pts Hnan) as [Hsorted Hvn].
    assert (Hlen : vsize (Spec.vertices pts) <= vsize pts).
    { unfold vsize. apply inj_le, submseteq_length, NoDup_submseteq.
      - apply sorted_NoDup, Hsorted.
      - apply vertices_in. }
    destruct (vertices_two pts Hnan Hdist) as [Hnone|Htwo]; [contradiction|].
    rewrite computeHull_vertices; [|exact Htwo|unfold fits_size_t in *; lia].
    rewrite (vertices_of_vertices pts Hnan Hdist). reflexivity.
Qed.

(** The four corners of the square, the hull of the square with its
    centre, are their own hull. *)
Lemma X15_second_run_returns_a_nonempty_hull_again_witness :
  computeHull [pt 0 0; pt 0 2; pt 2 0; pt 2 2]
  = Ok [pt 0 0; pt 0 2; pt 2 0; pt 2 2].
Proof.
  apply (X15_second_run_returns_a_nonempty_hull_again square_with_centre).
  - repeat constructor.
  - apply distinctb_distinct. vm_compute. reflexivity.
  - vm_compute. reflexivity.
  - vm_compute. reflexivity.
  - discriminate.
Defined.

(** X16.  The points [read_points] delivers need no further preparation:
    for the points of a file whose numbers are not NaN, a non-empty result
    of [computeHull] is returned again when [computeHull] is run on it,
    and every point of the result is a point written in the file. *)
Theorem X16_hull_of_the_points_of_a_file (ifs : ifstream) (hull : list point) :
  Forall (λ x, Double.is_nan x = false) (extracted ifs) →
  fits_size_t (points_of ifs) →
  computeHull (points_of ifs) = Ok hull →
  (hull ≠ [] → computeHull hull = Ok hull)
  ∧ (∀ q, q ∈ hull → q ∈ pairs (extracted ifs)).
Proof.
  intros Hnan Hfit Hhull.
  destruct (points_of_sorted ifs Hnan) as [Hsorted Hsn].
  split.
  - apply (second_run_on_nonempty_hull (points_of ifs)); try assumption.
    apply sorted_distinct; assumption.
  - intros q Hq. apply points_of_elem, (computeHull_subset _ _ _ Hhull), Hq.
Qed.

(** The hull of the file [1 1  2 2  0 0  2 0  0 2  1 1]. *)
Lemma X16_hull_of_the_points_of_a_file_witness :
  computeHull [pt 0 0; pt 0 2; pt 2 0; pt 2 2]
  = Ok [pt 0 0; pt 0 2; pt 2 0; pt 2 2].
Proof.
  apply (X16_hull_of_the_points_of_a_file
           (readable [Double.of_Z 1; Double.of_Z 1; Double.of_Z 2; Double.of_Z 2;
                      Double.of_Z 0; Double.of_Z 0; Double.of_Z 2; Double.of_Z 0;
                      Double.of_Z 0; Double.of_Z 2; Double.of_Z 1; Double.of_Z 1])).
  - repeat constructor.
  - vm_compute. reflexivity.
  - vm_compute. reflexivity.
  - discriminate.
Defined.

(** X17.  Which points are returned, without reference to the order of the
    input: for at least two points, without NaN and without duplicates, a
    point is in the result of [computeHull] exactly when it is an input
    point that passes the acceptance rule together with some other input
    point. *)
Theorem X17_hull_points_are_the_ends_of_accepted_pairs
    (pts hull : list point) (q : point) :
  Forall no_nan pts → distinct pts → fits_size_t pts → 2 <= vsize pts →
  computeHull pts = Ok hull →
  q ∈ hull ↔
  q ∈ pts ∧ ∃ p, p ∈ pts ∧ p ≠ q ∧ Spec.accepted pts q p = true.
Proof.
  intros Hnan Hdist Hfit Hsize Hhull.
  rewrite (computeHull_vertices pts Hsize Hfit) in Hhull. injection Hhull as <-.
  split.
  - intros Hq. split; [apply vertices_in, Hq|].
    apply endpoints_set_elem in Hq. destruct Hq as ([pi pj] & Hs & Hends).
    pose proof (edges_ends_differ pts _ Hnan Hdist Hs) as Hdiff.
    apply elem_of_edges in Hs. destruct Hs as [(i & j & _ & Hi & Hj) Hacc].
    simpl in *. destruct Hends as [->| ->].
    + exists pj. split; [eapply list_elem_of_lookup_2, Hj|]. split; [auto|exact Hacc].
    + exists pi. split; [eapply list_elem_of_lookup_2, Hi|].
      split; [exact Hdiff|rewrite accepted_swap; exact Hacc].
  - intros (Hq & p & Hp & Hdiff & Hacc).
    apply list_elem_of_lookup in Hq, Hp. destruct Hq as [i Hi], Hp as [j Hj].
    destruct (Nat.lt_total i j) as [Hlt|[Heq|Hlt]]; [|subst j; congruence|].
    + assert (Hs : (q, p) ∈ Spec.edges pts).
      { apply elem_of_edges. split; [|exact Hacc]. exists i, j. auto. }
      apply (edges_in_vertices pts _ Hnan Hdist Hs).
    + assert (Hs : (p, q) ∈ Spec.edges pts).
      { apply elem_of_edges. split; [|rewrite accepted_swap; exact Hacc].
        exists j, i. auto. }
      apply (edges_in_vertices pts _ Hnan Hdist Hs).
Qed.

(** The corner (2,2) of the square with its centre is returned: it passes
    the acceptance rule with the corner (0,2). *)
Lemma X17_hull_points_are_the_ends_of_accepted_pairs_witness :
  pt 2 2 ∈ [pt 0 0; pt 0 2; pt 2 0; pt 2 2].
Proof.
  apply (X17_hull_points_are_the_ends_of_accepted_pairs square_with_centre).
  - repeat constructor.
  - apply distinctb_distinct. vm_compute. reflexivity.
  - vm_compute. reflexivity.
  - vm_compute. discriminate.
  - vm_compute. reflexivity.
  - split; [unfold square_with_centre; rewrite !elem_of_cons; tauto|].
    exists (pt 0 2).
    split; [unfold square_with_centre; rewrite !elem_of_cons; tauto|].
    split; [vm_compute; discriminate|vm_compute; reflexivity].
Defined.

(** * The rule the enumerator computes *)

(** X18.  What the enumerator computes.  For every vector [pts] of at
    least two points and every pair of indices [i < j], the round of the
    loops for that pair appends the segment [(pts[i], pts[j])] exactly
    when the two flags [LT] and [GT] are not both set, [LT] being set when
    some point of [pts] has a computed [val] below zero and [GT] when some
    point has a computed [val] above zero, [val] being the double that
    line 205 computes with its rounding.  The segments returned are these
    pairs and nothing else, and a point whose [val] compares equal to zero
    sets neither flag. *)
Theorem X18_enumerator_accepts_by_the_computed_flags (pts : list point) :
  2 <= vsize pts → fits_size_t pts →
  ∃ sgmts, brute_force_convex_hull pts [] = Ok sgmts ∧
    (∀ (i j : nat) (pi pj : point),
        (i < j)%nat → pts !! i = Some pi → pts !! j = Some pj →
        (∀ ret, pair_step pts (Z.of_nat i) (Z.of_nat j) ret
                = Ok (if Spec.accepted pts pi pj then ret ++ [(pi, pj)] else ret))
        ∧ ((pi, pj) ∈ sgmts ↔
           ¬ ((∃ pk, pk ∈ pts
                 ∧ Double.lt (Spec.signed_value pi pj pk) Double.zero = true)
              ∧ (∃ pk, pk ∈ pts
                 ∧ Double.lt Double.zero (Spec.signed_value pi pj pk) = true))))
    ∧ (∀ s, s ∈ sgmts →
        ∃ i j : nat, (i < j)%nat ∧ pts !! i = Some s.1 ∧ pts !! j = Some s.2)
    ∧ (∀ pi pj pk,
        Double.eq (Spec.signed_value pi pj pk) Double.zero = true →
        Spec.negative pi pj pk = false ∧ Spec.positive pi pj pk = false).
Proof.
  intros Hsize Hfit. exists (Spec.edges pts).
  split; [rewrite brute_force_convex_hull_edges by (assumption || lia);
          reflexivity|].
  split; [|split].
  - intros i j pi pj Hij Hi Hj. split.
    + intros ret.
      rewrite (pair_step_accept_step pts _ pi _ ret (at_lookup _ _ _ Hi)).
      rewrite (at_lookup _ _ _ Hj), bind_Ok. reflexivity.
    + rewrite elem_of_edges, <- accepted_iff. split; [intros [_ H]; exact H|].
      intros H. split; [|exact H]. exists i, j. auto.
  - intros [pi pj] Hs. apply elem_of_edges in Hs. destruct Hs as [Hs _]. exact Hs.
  - intros pi pj pk. apply eq_zero_not_lt.
Qed.


(** The acceptance rule at the square with its centre, for its first two
    points. *)
Lemma X18_enumerator_accepts_by_the_computed_flags_witness :
  2 <= vsize square_with_centre ∧ fits_size_t square_with_centre
  ∧ ∃ sgmts, brute_force_convex_hull square_with_centre [] = Ok sgmts
             ∧ ((pt 0 0, pt 0 2) ∈ sgmts ↔
                ¬ ((∃ pk, pk ∈ square_with_centre
                      ∧ Double.lt (Spec.signed_value (pt 0 0) (pt 0 2) pk)
                          Double.zero = true)
                   ∧ (∃ pk, pk ∈ square_with_centre
                      ∧ Double.lt Double.zero
                          (Spec.signed_value (pt 0 0) (pt 0 2) pk) = true))).
Proof.
  assert (H2 : 2 <= vsize square_with_centre) by (vm_compute; discriminate).
  assert (Hfit : fits_size_t square_with_centre) by (vm_compute; reflexivity).
  split; [exact H2|]. split; [exact Hfit|].
  destruct (X18_enumerator_accepts_by_the_computed_flags square_with_centre H2 Hfit)
    as (sgmts & Hs & Hpairs & _).
  exists sgmts. split; [exact Hs|].
  apply (Hpairs 0%nat 1%nat); [lia|reflexivity|reflexivity].
Defined.
